(** * Recording session controller of record-and-connect

    A shallow embedding of the [RecordingStudio] React component
    (src/components/RecordingStudio.tsx and its later revision with the
    transcript panel) together with the part of the browser it talks to:
    MediaRecorder objects, media tracks, interval timers, pending
    capture-acquisition promises, object URLs and the download shelf.

    The component is event driven.  Every handler of the source is a
    function on the [Studio] state below; [step] dispatches one event of
    the browser's event loop to the handler the source registers for it.

    Conventions of the embedding
    - Handlers invoked by a click read [recordingState] of the latest
      render (React re-renders between two discrete events).  A callback
      handed to [setTimeout] keeps the [recordingState] of the render that
      created it: the snapshot is stored with the timeout.
    - [startRecording] is [async]: it is split at each [await]; the
      suspended continuation is kept in [acquisitions] with the values its
      closure captured ([captureMode], [micEnabled]).
    - A MediaStream is the list of its tracks: the source adds a track to
      a stream only before the stream is stored in [streamRef], so no
      aliasing of a stream is observable afterwards.  [live_tracks] is
      shared browser state: the tracks the page was granted and has not
      stopped with [track.stop()].
    - The recorder is the external collaborator the specification
      describes: it emits chunks and one finalize notification when it
      stops.  [MediaRecorder.stop()] makes the recorder inactive at once
      and queues one task that fires [dataavailable] with the data
      gathered so far and then [stop]; that task runs in a later turn of
      the event loop (the event [RecorderStops]), and other events may
      come before it.  A recorder also stops on its own, when every track
      of its stream has ended (the user ends the capture from the
      browser's own controls) or when it cannot go on: it becomes inactive
      and fires the same two notifications (the event [RecorderEnds]).
      Which tracks ended on their own is not followed, only the recorder
      that stops for it.  The handlers [ondataavailable] and [onstop] read
      refs and use functional state updates only, so they are the same
      function for every recorder the component creates.
    - A [MediaRecorder] constructor that rejects the mime type is outside
      the model.

    The voice-call component (src/components/VoiceCallStudio.tsx) is
    embedded the same way in the module [VoiceCall]. *)

From Stdlib Require Import Strings.Byte DecimalString DecimalNat.
From stdpp Require Import gmap strings list.

Open Scope string_scope.
Open Scope list_scope.
Open Scope stdpp_scope.
Open Scope nat_scope.

(** ** Blobs *)

Record Blob := mkBlob { blob_bytes : list byte; blob_type : string }.

Inductive BlobPart :=
| PartBlob (b : Blob)
| PartText (s : string).

Definition part_bytes (p : BlobPart) : list byte :=
  match p with
  | PartBlob b => blob_bytes b
  | PartText s => String.list_byte_of_string s
  end.

(** [new Blob(parts, { type })]: the parts' bytes, in order. *)
Definition new_Blob (parts : list BlobPart) (type : string) : Blob :=
  {| blob_bytes := concat (map part_bytes parts); blob_type := type |}.

(** [blob.size] *)
Definition Blob_size (b : Blob) : nat := length (blob_bytes b).

(** ** React state of the component *)

Record RecordingState := mkRecordingState {
  isRecording : bool;
  isPaused : bool;
  duration : nat;
  recordedBlob : option Blob;
  transcript : string;
  meetingPoints : list string;
  isProcessing : bool
}.

Inductive CaptureMode := screen | window | camera.

Definition CaptureMode_toString (m : CaptureMode) : string :=
  match m with
  | screen => "screen"
  | window => "window"
  | camera => "camera"
  end.

(** ** Browser objects *)

(** [MediaRecorder.state] *)
Inductive RecorderState := inactive | recording | paused.

(** A MediaStream, as the list of the ids of its tracks. *)
Definition MediaStream := list nat.

Inductive VideoConstraint := VideoAny | VideoFacingUser.

Record Constraints := mkConstraints {
  video : VideoConstraint;
  audio : bool
}.

(** The continuation of a suspended [startRecording] call. *)
Inductive Await :=
| AwaitDisplay (mode : CaptureMode) (mic : bool)
| AwaitMicrophone (mode : CaptureMode) (stream : MediaStream)
| AwaitCamera (mode : CaptureMode) (c : Constraints).

(** How the browser settles an acquisition promise: a stream with
    [ntracks] fresh live tracks, or a rejection (permission denied, no
    device, unsupported context). *)
Inductive Settlement :=
| Granted (ntracks : nat)
| Rejected.

Record Toast := mkToast {
  title : string;
  description : option string;
  destructive : bool
}.

Inductive DOMException := InvalidStateError.

Record Browser := mkBrowser {
  recorders : gmap nat RecorderState;
  live_tracks : gset nat;
  timers : gset nat;
  acquisitions : gmap nat Await;
  stop_tasks : list nat;
  timeouts : list RecordingState;
  transcriptions : nat;
  object_urls : gmap nat Blob;
  downloads : list (string * Blob);
  toasts : list Toast;
  next_id : nat
}.

(** ** The component instance: React state, refs, and its browser *)

Record Studio := mkStudio {
  recordingState : RecordingState;
  micEnabled : bool;
  captureMode : CaptureMode;
  mediaRecorderRef : option nat;
  streamRef : option MediaStream;
  chunksRef : list Blob;
  intervalRef : option nat;
  browser : Browser
}.

(** *** Field updates *)

Definition setRecordingState (f : RecordingState → RecordingState) (st : Studio) : Studio :=
  mkStudio (f (recordingState st)) (micEnabled st) (captureMode st)
    (mediaRecorderRef st) (streamRef st) (chunksRef st) (intervalRef st) (browser st).

Definition setMicEnabled (b : bool) (st : Studio) : Studio :=
  mkStudio (recordingState st) b (captureMode st)
    (mediaRecorderRef st) (streamRef st) (chunksRef st) (intervalRef st) (browser st).

Definition setCaptureMode (m : CaptureMode) (st : Studio) : Studio :=
  mkStudio (recordingState st) (micEnabled st) m
    (mediaRecorderRef st) (streamRef st) (chunksRef st) (intervalRef st) (browser st).

Definition set_mediaRecorderRef (r : option nat) (st : Studio) : Studio :=
  mkStudio (recordingState st) (micEnabled st) (captureMode st)
    r (streamRef st) (chunksRef st) (intervalRef st) (browser st).

Definition set_streamRef (s : option MediaStream) (st : Studio) : Studio :=
  mkStudio (recordingState st) (micEnabled st) (captureMode st)
    (mediaRecorderRef st) s (chunksRef st) (intervalRef st) (browser st).

Definition set_chunksRef (c : list Blob) (st : Studio) : Studio :=
  mkStudio (recordingState st) (micEnabled st) (captureMode st)
    (mediaRecorderRef st) (streamRef st) c (intervalRef st) (browser st).

Definition set_intervalRef (i : option nat) (st : Studio) : Studio :=
  mkStudio (recordingState st) (micEnabled st) (captureMode st)
    (mediaRecorderRef st) (streamRef st) (chunksRef st) i (browser st).

Definition with_browser (f : Browser → Browser) (st : Studio) : Studio :=
  mkStudio (recordingState st) (micEnabled st) (captureMode st)
    (mediaRecorderRef st) (streamRef st) (chunksRef st) (intervalRef st) (f (browser st)).

Definition set_recorders (f : gmap nat RecorderState → gmap nat RecorderState) (b : Browser) : Browser :=
  mkBrowser (f (recorders b)) (live_tracks b) (timers b) (acquisitions b) (stop_tasks b)
    (timeouts b) (transcriptions b) (object_urls b) (downloads b) (toasts b) (next_id b).

Definition set_live_tracks (f : gset nat → gset nat) (b : Browser) : Browser :=
  mkBrowser (recorders b) (f (live_tracks b)) (timers b) (acquisitions b) (stop_tasks b)
    (timeouts b) (transcriptions b) (object_urls b) (downloads b) (toasts b) (next_id b).

Definition set_timers (f : gset nat → gset nat) (b : Browser) : Browser :=
  mkBrowser (recorders b) (live_tracks b) (f (timers b)) (acquisitions b) (stop_tasks b)
    (timeouts b) (transcriptions b) (object_urls b) (downloads b) (toasts b) (next_id b).

Definition set_acquisitions (f : gmap nat Await → gmap nat Await) (b : Browser) : Browser :=
  mkBrowser (recorders b) (live_tracks b) (timers b) (f (acquisitions b)) (stop_tasks b)
    (timeouts b) (transcriptions b) (object_urls b) (downloads b) (toasts b) (next_id b).

Definition set_stop_tasks (f : list nat → list nat) (b : Browser) : Browser :=
  mkBrowser (recorders b) (live_tracks b) (timers b) (acquisitions b) (f (stop_tasks b))
    (timeouts b) (transcriptions b) (object_urls b) (downloads b) (toasts b) (next_id b).

Definition set_timeouts (f : list RecordingState → list RecordingState) (b : Browser) : Browser :=
  mkBrowser (recorders b) (live_tracks b) (timers b) (acquisitions b) (stop_tasks b)
    (f (timeouts b)) (transcriptions b) (object_urls b) (downloads b) (toasts b) (next_id b).

Definition set_transcriptions (f : nat → nat) (b : Browser) : Browser :=
  mkBrowser (recorders b) (live_tracks b) (timers b) (acquisitions b) (stop_tasks b)
    (timeouts b) (f (transcriptions b)) (object_urls b) (downloads b) (toasts b) (next_id b).

Definition set_object_urls (f : gmap nat Blob → gmap nat Blob) (b : Browser) : Browser :=
  mkBrowser (recorders b) (live_tracks b) (timers b) (acquisitions b) (stop_tasks b)
    (timeouts b) (transcriptions b) (f (object_urls b)) (downloads b) (toasts b) (next_id b).

Definition set_downloads (f : list (string * Blob) → list (string * Blob)) (b : Browser) : Browser :=
  mkBrowser (recorders b) (live_tracks b) (timers b) (acquisitions b) (stop_tasks b)
    (timeouts b) (transcriptions b) (object_urls b) (f (downloads b)) (toasts b) (next_id b).

Definition set_toasts (f : list Toast → list Toast) (b : Browser) : Browser :=
  mkBrowser (recorders b) (live_tracks b) (timers b) (acquisitions b) (stop_tasks b)
    (timeouts b) (transcriptions b) (object_urls b) (downloads b) (f (toasts b)) (next_id b).

Definition set_next_id (f : nat → nat) (b : Browser) : Browser :=
  mkBrowser (recorders b) (live_tracks b) (timers b) (acquisitions b) (stop_tasks b)
    (timeouts b) (transcriptions b) (object_urls b) (downloads b) (toasts b) (f (next_id b)).

(** ** Browser primitives *)

(** [toast({ ... })] *)
Definition toast (t : Toast) (st : Studio) : Studio :=
  with_browser (set_toasts (λ ts, ts ++ [t])) st.

(** [setInterval(cb, 1000)]: a fresh, live timer id.  Ids are positive,
    so the truthiness test of [stopTimer] is the test for [Some]. *)
Definition setInterval (b : Browser) : nat * Browser :=
  (next_id b, set_next_id S (set_timers (λ ts, {[next_id b]} ∪ ts) b)).

(** [clearInterval(id)] *)
Definition clearInterval (id : nat) (b : Browser) : Browser :=
  set_timers (λ ts, ts ∖ {[id]}) b.

(** The stream a granted acquisition resolves to: [n] fresh live tracks. *)
Definition grant_stream (n : nat) (b : Browser) : MediaStream * Browser :=
  (seq (next_id b) n,
   set_next_id (λ i, i + n) (set_live_tracks (λ ls, list_to_set (seq (next_id b) n) ∪ ls) b)).

(** [track.stop()] for every track of the list. *)
Definition stop_tracks (s : MediaStream) (b : Browser) : Browser :=
  set_live_tracks (λ ls, ls ∖ list_to_set s) b.

(** [new MediaRecorder(stream, ...)]: a fresh recorder, inactive. *)
Definition new_MediaRecorder (b : Browser) : nat * Browser :=
  (next_id b, set_next_id S (set_recorders (λ rs, <[next_id b := inactive]> rs) b)).

(** [recorder.start(timeslice)] on a recorder that is inactive. *)
Definition MediaRecorder_start (r : nat) (b : Browser) : Browser :=
  set_recorders (λ rs, <[r := recording]> rs) b.

(** [recorder.pause()]: InvalidStateError when inactive. *)
Definition MediaRecorder_pause (r : nat) (b : Browser) : DOMException + Browser :=
  match recorders b !! r with
  | Some recording | Some paused => inr (set_recorders (λ rs, <[r := paused]> rs) b)
  | Some inactive | None => inl InvalidStateError
  end.

(** [recorder.resume()]: InvalidStateError when inactive. *)
Definition MediaRecorder_resume (r : nat) (b : Browser) : DOMException + Browser :=
  match recorders b !! r with
  | Some recording | Some paused => inr (set_recorders (λ rs, <[r := recording]> rs) b)
  | Some inactive | None => inl InvalidStateError
  end.

(** [recorder.stop()]: nothing when inactive; otherwise the recorder
    becomes inactive and its dataavailable-then-stop task is queued. *)
Definition MediaRecorder_stop (r : nat) (b : Browser) : Browser :=
  match recorders b !! r with
  | Some recording | Some paused =>
      set_stop_tasks (λ q, q ++ [r]) (set_recorders (λ rs, <[r := inactive]> rs) b)
  | Some inactive | None => b
  end.

(** [URL.createObjectURL(blob)] *)
Definition createObjectURL (blob : Blob) (b : Browser) : nat * Browser :=
  (next_id b, set_next_id S (set_object_urls (λ us, <[next_id b := blob]> us) b)).

(** [URL.revokeObjectURL(url)] *)
Definition revokeObjectURL (url : nat) (b : Browser) : Browser :=
  set_object_urls (λ us, delete url us) b.

(** Clicking an anchor whose [href] is an object URL and whose
    [download] is [name]: the blob behind the URL is saved under that
    name. *)
Definition anchor_click (href : nat) (name : string) (b : Browser) : Browser :=
  match object_urls b !! href with
  | Some content => set_downloads (λ ds, ds ++ [(name, content)]) b
  | None => b
  end.

(** ** The component's functions, in source order *)

Definition initialRecordingState : RecordingState :=
  {| isRecording := false; isPaused := false; duration := 0; recordedBlob := None;
     transcript := EmptyString; meetingPoints := []; isProcessing := false |}.

Definition startTimer (st : Studio) : Studio :=
  let '(id, b) := setInterval (browser st) in
  set_intervalRef (Some id) (with_browser (λ _, b) st).

(** The callback [startTimer] hands to [setInterval]. *)
Definition timer_callback (st : Studio) : Studio :=
  setRecordingState (λ prev,
    {| isRecording := isRecording prev; isPaused := isPaused prev;
       duration := duration prev + 1;
       recordedBlob := recordedBlob prev; transcript := transcript prev;
       meetingPoints := meetingPoints prev; isProcessing := isProcessing prev |}) st.

Definition stopTimer (st : Studio) : Studio :=
  match intervalRef st with
  | Some id => set_intervalRef None (with_browser (clearInterval id) st)
  | None => st
  end.

Definition getMediaConstraints (st : Studio) : Constraints :=
  let constraints := {| video := VideoAny; audio := micEnabled st |} in
  match captureMode st with
  | screen => constraints
  | camera => {| video := VideoFacingUser; audio := audio constraints |}
  | window => constraints
  end.

(** [startRecording], up to its first [await]: the acquisition is
    requested and the call is suspended.  Nothing of the component is
    consulted but [captureMode] and [micEnabled]. *)
Definition startRecording (st : Studio) : Studio :=
  let k := next_id (browser st) in
  let suspended :=
    match captureMode st with
    | screen | window => AwaitDisplay (captureMode st) (micEnabled st)
    | camera => AwaitCamera (captureMode st) (getMediaConstraints st)
    end in
  with_browser (λ b, set_next_id S (set_acquisitions (λ ps, <[k := suspended]> ps) b)) st.

(** [mediaRecorder.ondataavailable] *)
Definition ondataavailable (data : Blob) (st : Studio) : Studio :=
  if decide (0 < Blob_size data)
  then set_chunksRef (chunksRef st ++ [data]) st
  else st.

(** [mediaRecorder.onstop] *)
Definition onstop (st : Studio) : Studio :=
  let blob := new_Blob (map PartBlob (chunksRef st)) "video/webm" in
  let st := setRecordingState (λ prev,
    {| isRecording := isRecording prev; isPaused := isPaused prev;
       duration := duration prev;
       recordedBlob := Some blob; transcript := transcript prev;
       meetingPoints := meetingPoints prev; isProcessing := isProcessing prev |}) st in
  match streamRef st with
  | Some stream => set_streamRef None (with_browser (stop_tracks stream) st)
  | None => st
  end.

(** The [catch] block of [startRecording]. *)
Definition startRecording_catch (st : Studio) : Studio :=
  toast {| title := "Recording Failed";
           description := Some "Failed to start recording. Please check permissions.";
           destructive := true |} st.

(** [startRecording] from [streamRef.current = stream] to its end. *)
Definition startRecording_record (mode : CaptureMode) (stream : MediaStream) (st : Studio) : Studio :=
  let st := set_streamRef (Some stream) st in
  let st := set_chunksRef [] st in
  let '(mediaRecorder, b) := new_MediaRecorder (browser st) in
  let st := with_browser (λ _, b) st in
  let st := set_mediaRecorderRef (Some mediaRecorder) st in
  let st := with_browser (MediaRecorder_start mediaRecorder) st in
  let st := setRecordingState (λ prev,
    {| isRecording := true; isPaused := false; duration := 0; recordedBlob := None;
       transcript := transcript prev; meetingPoints := meetingPoints prev;
       isProcessing := isProcessing prev |}) st in
  let st := startTimer st in
  toast {| title := "Recording Started";
           description := Some (CaptureMode_toString mode +:+ " recording is now active");
           destructive := false |} st.

(** [startRecording] resumed when the promise [k] it awaits settles. *)
Definition startRecording_settled (k : nat) (o : Settlement) (st : Studio) : Studio :=
  match acquisitions (browser st) !! k with
  | None => st
  | Some suspended =>
      let st := with_browser (set_acquisitions (λ ps, delete k ps)) st in
      match suspended, o with
      | AwaitDisplay mode mic, Granted n =>
          let '(stream, b) := grant_stream n (browser st) in
          let st := with_browser (λ _, b) st in
          if mic
          then with_browser (set_acquisitions (λ ps, <[k := AwaitMicrophone mode stream]> ps)) st
          else startRecording_record mode stream st
      | AwaitMicrophone mode stream, Granted n =>
          let '(audioStream, b) := grant_stream n (browser st) in
          let st := with_browser (λ _, b) st in
          match audioStream with
          | audioTrack :: _ => startRecording_record mode (stream ++ [audioTrack]) st
          | [] => startRecording_catch st
          end
      | AwaitCamera mode _, Granted n =>
          let '(stream, b) := grant_stream n (browser st) in
          let st := with_browser (λ _, b) st in
          startRecording_record mode stream st
      | _, Rejected => startRecording_catch st
      end
  end.

(** What a handler called from the event loop does: it returns, or an
    exception escapes it. *)
Inductive Completion :=
| Returned (st : Studio)
| Threw (e : DOMException) (st : Studio).

Definition final_state (c : Completion) : Studio :=
  match c with
  | Returned st | Threw _ st => st
  end.

Definition pauseRecording (st : Studio) : Completion :=
  match mediaRecorderRef st with
  | Some mediaRecorder =>
      if isRecording (recordingState st) then
        if isPaused (recordingState st) then
          match MediaRecorder_resume mediaRecorder (browser st) with
          | inl e => Threw e st
          | inr b =>
              let st := with_browser (λ _, b) st in
              let st := startTimer st in
              let st := setRecordingState (λ prev,
                {| isRecording := isRecording prev; isPaused := false;
                   duration := duration prev;
                   recordedBlob := recordedBlob prev; transcript := transcript prev;
                   meetingPoints := meetingPoints prev;
                   isProcessing := isProcessing prev |}) st in
              Returned (toast {| title := "Recording Resumed"; description := None;
                                 destructive := false |} st)
          end
        else
          match MediaRecorder_pause mediaRecorder (browser st) with
          | inl e => Threw e st
          | inr b =>
              let st := with_browser (λ _, b) st in
              let st := stopTimer st in
              let st := setRecordingState (λ prev,
                {| isRecording := isRecording prev; isPaused := true;
                   duration := duration prev;
                   recordedBlob := recordedBlob prev; transcript := transcript prev;
                   meetingPoints := meetingPoints prev;
                   isProcessing := isProcessing prev |}) st in
              Returned (toast {| title := "Recording Paused"; description := None;
                                 destructive := false |} st)
          end
      else Returned st
  | None => Returned st
  end.

(** [stopRecording].  Its last statement, present in the revision with
    the transcript panel, schedules [processRecordingForTranscript] of
    the current render. *)
Definition stopRecording (st : Studio) : Completion :=
  match mediaRecorderRef st with
  | Some mediaRecorder =>
      let render := recordingState st in
      let st := with_browser (MediaRecorder_stop mediaRecorder) st in
      let st := stopTimer st in
      let st := setRecordingState (λ prev,
        {| isRecording := false; isPaused := false; duration := duration prev;
           recordedBlob := recordedBlob prev; transcript := transcript prev;
           meetingPoints := meetingPoints prev; isProcessing := isProcessing prev |}) st in
      let st := toast {| title := "Recording Stopped";
                         description := Some "Your recording is ready for download";
                         destructive := false |} st in
      Returned (with_browser (set_timeouts (λ q, q ++ [render])) st)
  | None => Returned st
  end.

(** The task queued by [MediaRecorder.stop()]: [dataavailable] with the
    rest of the data, then [stop]. *)
Definition run_stop_task (final : Blob) (st : Studio) : Studio :=
  match stop_tasks (browser st) with
  | _ :: q => onstop (ondataavailable final (with_browser (set_stop_tasks (λ _, q)) st))
  | [] => st
  end.

(** A recorder that is not inactive stops on its own: it becomes
    inactive and fires [dataavailable] with the rest of the data, then
    [stop]. *)
Definition recorder_ends (r : nat) (final : Blob) (st : Studio) : Studio :=
  match recorders (browser st) !! r with
  | Some recording | Some paused =>
      onstop (ondataavailable final
                (with_browser (set_recorders (λ rs, <[r := inactive]> rs)) st))
  | Some inactive | None => st
  end.

Definition extractAudioFromBlob (videoBlob : Blob) : Blob := videoBlob.

(** The text [transcribeAudio] resolves to. *)
Definition transcribeAudio : string :=
"Welcome to today's meeting. We discussed the following agenda items:

First, we reviewed the quarterly performance metrics and found that revenue increased by 15% compared to last quarter.

Second, we outlined the upcoming product launch strategy for our new mobile application, which is scheduled for release in Q2.

Third, we addressed team restructuring plans and the hiring of three new developers for the backend team.

Finally, we established action items for the next sprint and set deadlines for deliverables.

Thank you all for your participation and productive discussions.".

Definition extractMeetingPoints (transcript : string) : list string :=
  [ "Quarterly revenue increased by 15%";
    "Mobile app launch scheduled for Q2";
    "Plan to hire 3 new backend developers";
    "Action items assigned for next sprint";
    "Deliverable deadlines established" ].

(** [processRecordingForTranscript] of the render [render], up to
    [await transcribeAudio(...)]. *)
Definition processRecordingForTranscript (render : RecordingState) (st : Studio) : Studio :=
  match recordedBlob render with
  | None => st
  | Some blob =>
      let st := setRecordingState (λ prev,
        {| isRecording := isRecording prev; isPaused := isPaused prev;
           duration := duration prev;
           recordedBlob := recordedBlob prev; transcript := transcript prev;
           meetingPoints := meetingPoints prev; isProcessing := true |}) st in
      let audioBlob := extractAudioFromBlob blob in
      with_browser (set_transcriptions S) st
  end.

(** [processRecordingForTranscript] resumed with the transcript. *)
Definition processRecordingForTranscript_resumed (st : Studio) : Studio :=
  match transcriptions (browser st) with
  | 0 => st
  | S n =>
      let st := with_browser (set_transcriptions (λ _, n)) st in
      let transcript' := transcribeAudio in
      let meetingPoints' := extractMeetingPoints transcript' in
      let st := setRecordingState (λ prev,
        {| isRecording := isRecording prev; isPaused := isPaused prev;
           duration := duration prev;
           recordedBlob := recordedBlob prev; transcript := transcript';
           meetingPoints := meetingPoints'; isProcessing := false |}) st in
      toast {| title := "Processing Complete";
               description := Some "Transcript and meeting minutes are ready";
               destructive := false |} st
  end.

(** The [setTimeout] callback of [stopRecording]. *)
Definition timeout_callback (st : Studio) : Studio :=
  match timeouts (browser st) with
  | render :: q =>
      processRecordingForTranscript render (with_browser (set_timeouts (λ _, q)) st)
  | [] => st
  end.

(** The sample text inside [downloadTranscript]. *)
Definition sampleTranscript : string :=
"Welcome to today's meeting. We discussed the following agenda items:

First, we reviewed the quarterly performance metrics and found that revenue increased by 15% compared to last quarter.

Second, we outlined the upcoming product launch strategy for our new mobile application, which is scheduled for release in Q2.

Third, we addressed team restructuring plans and the hiring of three new developers for the backend team.

Finally, we established action items for the next sprint and set deadlines for deliverables.

Thank you all for your participation and productive discussions.".

(** The text of the transcript file: the header, the date as
    [toLocaleString] prints it, and the body. *)
Definition transcript_content (localeDate body : string) : string :=
  "Meeting Transcript
Generated on: " +:+ localeDate +:+ "

" +:+ body.

(** The four statements both branches of [downloadTranscript] and
    [downloadRecording] share: object URL, anchor, click, revoke. *)
Definition save_as (blob : Blob) (name : string) (st : Studio) : Studio :=
  let '(url, b) := createObjectURL blob (browser st) in
  let st := with_browser (λ _, b) st in
  let st := with_browser (anchor_click url name) st in
  with_browser (revokeObjectURL url) st.

(** [downloadTranscript]; [iso] is [new Date().toISOString()] and
    [localeDate] is [new Date().toLocaleString()]. *)
Definition downloadTranscript (iso localeDate : string) (st : Studio) : Studio :=
  if decide (transcript (recordingState st) = EmptyString) then
    let content := transcript_content localeDate sampleTranscript in
    let blob := new_Blob [PartText content] "text/plain" in
    let st := save_as blob ("transcript-" +:+ String.substring 0 19 iso +:+ ".txt") st in
    toast {| title := "Download Started";
             description := Some "Sample transcript file is being downloaded";
             destructive := false |} st
  else
    let content := transcript_content localeDate (transcript (recordingState st)) in
    let blob := new_Blob [PartText content] "text/plain" in
    let st := save_as blob ("transcript-" +:+ String.substring 0 19 iso +:+ ".txt") st in
    toast {| title := "Download Started";
             description := Some "Transcript file is being downloaded";
             destructive := false |} st.

(** [downloadRecording]; [iso] is [new Date().toISOString()]. *)
Definition downloadRecording (iso : string) (st : Studio) : Studio :=
  match recordedBlob (recordingState st) with
  | Some blob =>
      let st := save_as blob ("recording-" +:+ String.substring 0 19 iso +:+ ".webm") st in
      toast {| title := "Download Started";
               description := Some "Your recording is being downloaded";
               destructive := false |} st
  | None => st
  end.

(** ** The event loop *)

Inductive Event :=
| ClickStart
| AcquisitionSettles (k : nat) (o : Settlement)
| ClickPauseResume
| ClickStop
| RecorderStops (final : Blob)
| RecorderEnds (recorder : nat) (final : Blob)
| TimerFires (id : nat)
| DataAvailable (recorder : nat) (data : Blob)
| ClickDownload (iso : string)
| ClickDownloadTranscript (iso localeDate : string)
| ClickMicrophone
| ClickCaptureMode (m : CaptureMode)
| TimeoutFires
| TranscriptionResolves.

(** One turn of the event loop.  A cleared interval never fires.  A
    recorder delivers data it gathered while recording; a notification
    that was already queued may still arrive after [pause()], and after
    [stop()] as long as the stop notification, which comes behind it in
    the queue, has not been delivered.  The capture-source and microphone
    buttons are [disabled] while [isRecording]. *)
Definition step (st : Studio) (e : Event) : Studio :=
  match e with
  | ClickStart => startRecording st
  | AcquisitionSettles k o => startRecording_settled k o st
  | ClickPauseResume => final_state (pauseRecording st)
  | ClickStop => final_state (stopRecording st)
  | RecorderStops final => run_stop_task final st
  | RecorderEnds r final => recorder_ends r final st
  | TimerFires id =>
      if decide (id ∈ timers (browser st)) then timer_callback st else st
  | DataAvailable r data =>
      match recorders (browser st) !! r with
      | Some recording | Some paused => ondataavailable data st
      | Some inactive =>
          if decide (r ∈ stop_tasks (browser st)) then ondataavailable data st else st
      | None => st
      end
  | ClickDownload iso => downloadRecording iso st
  | ClickDownloadTranscript iso localeDate => downloadTranscript iso localeDate st
  | ClickMicrophone =>
      if isRecording (recordingState st) then st
      else setMicEnabled (negb (micEnabled st)) st
  | ClickCaptureMode m =>
      if isRecording (recordingState st) then st else setCaptureMode m st
  | TimeoutFires => timeout_callback st
  | TranscriptionResolves => processRecordingForTranscript_resumed st
  end.

Definition run (st : Studio) (es : list Event) : Studio := foldl step st es.

(** The component as mounted: the [useState]/[useRef] initial values and
    a browser with nothing allocated.  Ids start at 1. *)
Definition mounted : Studio :=
  {| recordingState := initialRecordingState;
     micEnabled := true;
     captureMode := screen;
     mediaRecorderRef := None;
     streamRef := None;
     chunksRef := [];
     intervalRef := None;
     browser := {| recorders := ∅; live_tracks := ∅; timers := ∅; acquisitions := ∅;
                   stop_tasks := []; timeouts := []; transcriptions := 0;
                   object_urls := ∅; downloads := []; toasts := []; next_id := 1 |} |}.

(** ** The session status of the specification

    The source has no status field.  A session is [Recording] or
    [Paused] by the two flags; when not recording it is [Stopped] once a
    recorder has been created and [Idle] before. *)
Inductive Status := Idle | Recording | Paused | Stopped.

Definition status (st : Studio) : Status :=
  if isRecording (recordingState st) then
    if isPaused (recordingState st) then Paused else Recording
  else
    match mediaRecorderRef st with
    | Some _ => Stopped
    | None => Idle
    end.

Definition elapsedSeconds (st : Studio) : nat := duration (recordingState st).
Definition finalArtifact (st : Studio) : option Blob := recordedBlob (recordingState st).

(** ** Invariants

    A chunk is non-empty when its size is positive. *)
Definition nonempty (c : Blob) : Prop := 0 < Blob_size c.


(** What holds of the component after any sequence of events, whatever
    the order of the requests. *)
Record Inv (st : Studio) : Prop := {
  inv_chunks : Forall nonempty (chunksRef st);
  inv_recording :
    isRecording (recordingState st) = true →
    ∃ r, mediaRecorderRef st = Some r ∧
         (recorders (browser st) !! r = Some inactive ∨
          recorders (browser st) !! r =
            Some (if isPaused (recordingState st) then paused else recording));
  inv_stopped :
    isRecording (recordingState st) = false →
    ∀ r, mediaRecorderRef st = Some r → recorders (browser st) !! r = Some inactive;
  inv_paused :
    isPaused (recordingState st) = true → isRecording (recordingState st) = true;
  inv_idle :
    mediaRecorderRef st = None →
    recordedBlob (recordingState st) = None ∧ stop_tasks (browser st) = [] ∧
    recorders (browser st) = ∅;
  inv_interval :
    is_Some (intervalRef st) →
    isRecording (recordingState st) = true ∧ isPaused (recordingState st) = false;
  inv_fresh :
    ∀ k, is_Some (acquisitions (browser st) !! k) → k < next_id (browser st)
}.

(** A start request is admitted when nothing is being recorded and no
    acquisition is pending.  The source renders the Start button whenever
    [isRecording] is false; it does not look at pending acquisitions. *)
Definition start_admitted (st : Studio) : bool :=
  negb (isRecording (recordingState st)) && bool_decide (acquisitions (browser st) = ∅).

(** The event sequences in which every start request is admitted. *)
Fixpoint one_start_at_a_time (st : Studio) (es : list Event) : bool :=
  match es with
  | [] => true
  | e :: es' =>
      match e with
      | ClickStart => start_admitted st
      | _ => true
      end && one_start_at_a_time (step st e) es'
  end.

(** The tick the component keeps a handle of. *)
Definition tracked_timer (st : Studio) : gset nat :=
  match intervalRef st with
  | Some id => {[id]}
  | None => ∅
  end.

(** What holds in addition when start requests come one at a time. *)
Record SeqInv (st : Studio) : Prop := {
  seq_timers : timers (browser st) = tracked_timer st;
  seq_pending :
    acquisitions (browser st) = ∅ ∨
    (isRecording (recordingState st) = false ∧ ∃ k a, acquisitions (browser st) = {[k := a]})
}.

(** The orderly sessions: every start request is admitted and comes
    after the stop notification of the recording before it has been
    delivered, and no recorder stops on its own. *)
Fixpoint orderly (st : Studio) (es : list Event) : bool :=
  match es with
  | [] => true
  | e :: es' =>
      match e with
      | ClickStart => start_admitted st && bool_decide (stop_tasks (browser st) = [])
      | RecorderEnds _ _ => false
      | _ => true
      end && orderly (step st e) es'
  end.

(** What holds in addition in an orderly session: while recording, the
    recorder is as the flags say, the stream is held and there is no
    artifact; a pending stop notification is the only one, of a session
    that is no longer recording; once it has been delivered the artifact
    is there; and no recorder but the one of a recording session is
    active. *)
Record Orderly (st : Studio) : Prop := {
  ord_recording :
    isRecording (recordingState st) = true →
    stop_tasks (browser st) = [] ∧ recordedBlob (recordingState st) = None ∧
    ∃ r stream,
      mediaRecorderRef st = Some r ∧
      recorders (browser st) !! r =
        Some (if isPaused (recordingState st) then paused else recording) ∧
      streamRef st = Some stream;
  ord_pending :
    stop_tasks (browser st) ≠ [] →
    acquisitions (browser st) = ∅ ∧ isRecording (recordingState st) = false ∧
    recordedBlob (recordingState st) = None ∧ ∃ r, stop_tasks (browser st) = [r];
  ord_stopped :
    isRecording (recordingState st) = false → stop_tasks (browser st) = [] →
    is_Some (mediaRecorderRef st) → is_Some (recordedBlob (recordingState st));
  ord_others :
    ∀ r, recorders (browser st) !! r = Some recording ∨
         recorders (browser st) !! r = Some paused →
         isRecording (recordingState st) = true ∧ mediaRecorderRef st = Some r
}.


(** ** Scenarios

    Concrete event sequences; ids are handed out from 1 in allocation
    order. *)

Definition chunk : Blob := {| blob_bytes := [Byte.x01]; blob_type := "video/webm" |}.

(** Camera capture, granted with two tracks: recorder 4, timer 5. *)
Definition camera_session : list Event :=
  [ClickCaptureMode camera; ClickStart; AcquisitionSettles 1 (Granted 2)].

Definition paused_session : list Event :=
  camera_session ++ [DataAvailable 4 chunk; TimerFires 5; ClickPauseResume].

Definition stopped_session : list Event :=
  paused_session ++ [ClickStop; RecorderStops chunk].

(** Screen capture without the microphone (display tracks 2 and 3,
    recorder 4, timer 5); the user then ends the capture with the
    browser's own control, and the recorder stops. *)
Definition sharing_ended : list Event :=
  [ClickMicrophone; ClickStart; AcquisitionSettles 1 (Granted 2); RecorderEnds 4 chunk].

(** Start is clicked twice before the permission prompt is answered;
    both requests are then granted. *)
Definition overlapping_starts : list Event :=
  [ClickCaptureMode camera; ClickStart; ClickStart;
   AcquisitionSettles 1 (Granted 2); AcquisitionSettles 2 (Granted 2)].

(** Screen capture with the microphone: the display stream is granted
    (tracks 2 and 3), the microphone is refused. *)
Definition microphone_denied : list Event :=
  [ClickStart; AcquisitionSettles 1 (Granted 2); AcquisitionSettles 1 Rejected].

(** The scenario of the specification: screen capture with microphone,
    three ticks, pause, two seconds, resume, two ticks, stop.  The timer
    of the first stretch is 6, the one started on resume is 7. *)
Definition spec_scenario : list Event :=
  [ClickStart; AcquisitionSettles 1 (Granted 2); AcquisitionSettles 1 (Granted 1);
   TimerFires 6; DataAvailable 5 chunk; TimerFires 6; DataAvailable 5 chunk; TimerFires 6;
   ClickPauseResume; TimerFires 6; TimerFires 6; ClickPauseResume;
   TimerFires 7; DataAvailable 5 chunk; TimerFires 7;
   ClickStop; RecorderStops chunk].

(** ** More of the component

    [formatDuration] with the two string methods it uses, the minutes
    export, and the predicates the further properties are stated with. *)

(** [n.toString()] for a non-negative integer: its decimal digits. *)
Definition Number_toString (n : nat) : string :=
  NilEmpty.string_of_uint (Nat.to_uint n).

Fixpoint String_repeat (s : string) (count : nat) : string :=
  match count with
  | 0 => EmptyString
  | S count' => s +:+ String_repeat s count'
  end.

(** [s.padStart(targetLength, padString)] *)
Definition padStart (targetLength : nat) (padString : string) (s : string) : string :=
  if decide (targetLength ≤ String.length s) then s
  else if decide (padString = EmptyString) then s
  else
    let fillLen := targetLength - String.length s in
    String.substring 0 fillLen (String_repeat padString fillLen) +:+ s.

Definition formatDuration (seconds : nat) : string :=
  let mins := seconds / 60 in
  let secs := seconds mod 60 in
  padStart 2 "0" (Number_toString mins) +:+ ":" +:+ padStart 2 "0" (Number_toString secs).

(** The sample list inside [downloadMeetingMinutes]. *)
Definition samplePoints : list string :=
  [ "Quarterly revenue increased by 15%";
    "Mobile app launch scheduled for Q2";
    "Plan to hire 3 new backend developers";
    "Action items assigned for next sprint";
    "Deliverable deadlines established" ].

(** [points.map((point, index) => `${index + 1}. ${point}`).join('\n')] *)
Definition numbered_points (points : list string) : string :=
  String.concat "
" (imap (λ index point, Number_toString (index + 1) +:+ ". " +:+ point) points).

(** The text of the minutes file. *)
Definition minutes_content (localeDate : string) (points : list string) : string :=
  "Meeting Minutes
Generated on: " +:+ localeDate +:+ "

Key Discussion Points:
" +:+ numbered_points points +:+ "

---
Generated automatically from recording transcript.".

(** [downloadMeetingMinutes]; [iso] and [localeDate] as in
    [downloadTranscript]. *)
Definition downloadMeetingMinutes (iso localeDate : string) (st : Studio) : Studio :=
  if decide (length (meetingPoints (recordingState st)) = 0) then
    let content := minutes_content localeDate samplePoints in
    let blob := new_Blob [PartText content] "text/plain" in
    let st := save_as blob ("meeting-minutes-" +:+ String.substring 0 19 iso +:+ ".txt") st in
    toast {| title := "Download Started";
             description := Some "Sample meeting minutes file is being downloaded";
             destructive := false |} st
  else
    let content := minutes_content localeDate (meetingPoints (recordingState st)) in
    let blob := new_Blob [PartText content] "text/plain" in
    let st := save_as blob ("meeting-minutes-" +:+ String.substring 0 19 iso +:+ ".txt") st in
    toast {| title := "Download Started";
             description := Some "Meeting minutes file is being downloaded";
             destructive := false |} st.

(** The Stop button is rendered only while [isRecording]: the event
    sequences in which every stop request comes through the button. *)
Fixpoint stop_only_while_recording (st : Studio) (es : list Event) : bool :=
  match es with
  | [] => true
  | e :: es' =>
      match e with
      | ClickStop => isRecording (recordingState st)
      | _ => true
      end && stop_only_while_recording (step st e) es'
  end.

(** A track is referenced when it belongs to the stream [streamRef]
    holds or to the display stream a suspended [startRecording] is about
    to record.  Only a referenced track can ever reach [track.stop()]. *)
Definition referenced (st : Studio) (track : nat) : Prop :=
  (∃ stream, streamRef st = Some stream ∧ track ∈ stream) ∨
  (∃ k mode stream,
     acquisitions (browser st) !! k = Some (AwaitMicrophone mode stream) ∧ track ∈ stream).

Definition leaked (st : Studio) (track : nat) : Prop :=
  track ∈ live_tracks (browser st) ∧ ¬ referenced st track.

(** Whether nothing has been transcribed yet or the canned texts are in
    place. *)
Definition canned (rs : RecordingState) : Prop :=
  (transcript rs = EmptyString ∧ meetingPoints rs = []) ∨
  (transcript rs = transcribeAudio ∧ meetingPoints rs = samplePoints).

(** Nothing has been handed to the transcription and nothing is due to
    be: every scheduled [processRecordingForTranscript] will find no
    artifact in its render. *)
Record Quiet (st : Studio) : Prop := {
  quiet_timeouts : Forall (λ render, recordedBlob render = None) (timeouts (browser st));
  quiet_transcriptions : transcriptions (browser st) = 0;
  quiet_processing : isProcessing (recordingState st) = false;
  quiet_transcript : transcript (recordingState st) = EmptyString;
  quiet_points : meetingPoints (recordingState st) = []
}.

(** ** The voice-call component (src/components/VoiceCallStudio.tsx)

    The same conventions as for the recording component.  [createRoom]
    and [joinRoom] are [async] and suspend at
    [await initializeLocalStream()].  [String.prototype.trim] and
    [Math.random] belong to the platform: [trim] is a parameter of the
    section, the generated room id comes with the click. *)
Module VoiceCall.

Record CallState := mkCallState {
  isInCall : bool;
  isConnecting : bool;
  callDuration : nat;
  roomId : string;
  isHost : bool
}.

(** A PeerConnection: the id of its RTCPeerConnection and its stream. *)
Record PeerConnection := mkPeerConnection {
  connection : nat;
  stream : option MediaStream
}.

(** The continuation of a suspended [createRoom] or [joinRoom]. *)
Inductive Await :=
| AwaitCreate (generated : string)
| AwaitJoin (input : string).

Record Call := mkCall {
  callState : CallState;
  micEnabled : bool;
  audioEnabled : bool;
  roomInput : string;
  peers : list PeerConnection;
  localStreamRef : option MediaStream;
  callTimerRef : option nat;
  live_tracks : gset nat;
  disabled_tracks : gset nat;
  closed_connections : gset nat;
  timers : gset nat;
  acquisitions : gmap nat Await;
  clipboard : option string;
  toasts : list Toast;
  next_id : nat
}.

Definition setCallState (f : CallState → CallState) (st : Call) : Call :=
  mkCall (f (callState st)) (micEnabled st) (audioEnabled st) (roomInput st) (peers st)
    (localStreamRef st) (callTimerRef st) (live_tracks st) (disabled_tracks st)
    (closed_connections st) (timers st) (acquisitions st) (clipboard st) (toasts st)
    (next_id st).

Definition setMicEnabled (b : bool) (st : Call) : Call :=
  mkCall (callState st) b (audioEnabled st) (roomInput st) (peers st)
    (localStreamRef st) (callTimerRef st) (live_tracks st) (disabled_tracks st)
    (closed_connections st) (timers st) (acquisitions st) (clipboard st) (toasts st)
    (next_id st).

Definition setRoomInput (s : string) (st : Call) : Call :=
  mkCall (callState st) (micEnabled st) (audioEnabled st) s (peers st)
    (localStreamRef st) (callTimerRef st) (live_tracks st) (disabled_tracks st)
    (closed_connections st) (timers st) (acquisitions st) (clipboard st) (toasts st)
    (next_id st).

Definition setPeers (ps : list PeerConnection) (st : Call) : Call :=
  mkCall (callState st) (micEnabled st) (audioEnabled st) (roomInput st) ps
    (localStreamRef st) (callTimerRef st) (live_tracks st) (disabled_tracks st)
    (closed_connections st) (timers st) (acquisitions st) (clipboard st) (toasts st)
    (next_id st).

Definition set_localStreamRef (s : option MediaStream) (st : Call) : Call :=
  mkCall (callState st) (micEnabled st) (audioEnabled st) (roomInput st) (peers st)
    s (callTimerRef st) (live_tracks st) (disabled_tracks st)
    (closed_connections st) (timers st) (acquisitions st) (clipboard st) (toasts st)
    (next_id st).

Definition set_callTimerRef (t : option nat) (st : Call) : Call :=
  mkCall (callState st) (micEnabled st) (audioEnabled st) (roomInput st) (peers st)
    (localStreamRef st) t (live_tracks st) (disabled_tracks st)
    (closed_connections st) (timers st) (acquisitions st) (clipboard st) (toasts st)
    (next_id st).

Definition set_live_tracks (f : gset nat → gset nat) (st : Call) : Call :=
  mkCall (callState st) (micEnabled st) (audioEnabled st) (roomInput st) (peers st)
    (localStreamRef st) (callTimerRef st) (f (live_tracks st)) (disabled_tracks st)
    (closed_connections st) (timers st) (acquisitions st) (clipboard st) (toasts st)
    (next_id st).

Definition set_disabled_tracks (f : gset nat → gset nat) (st : Call) : Call :=
  mkCall (callState st) (micEnabled st) (audioEnabled st) (roomInput st) (peers st)
    (localStreamRef st) (callTimerRef st) (live_tracks st) (f (disabled_tracks st))
    (closed_connections st) (timers st) (acquisitions st) (clipboard st) (toasts st)
    (next_id st).

Definition set_closed_connections (f : gset nat → gset nat) (st : Call) : Call :=
  mkCall (callState st) (micEnabled st) (audioEnabled st) (roomInput st) (peers st)
    (localStreamRef st) (callTimerRef st) (live_tracks st) (disabled_tracks st)
    (f (closed_connections st)) (timers st) (acquisitions st) (clipboard st) (toasts st)
    (next_id st).

Definition set_timers (f : gset nat → gset nat) (st : Call) : Call :=
  mkCall (callState st) (micEnabled st) (audioEnabled st) (roomInput st) (peers st)
    (localStreamRef st) (callTimerRef st) (live_tracks st) (disabled_tracks st)
    (closed_connections st) (f (timers st)) (acquisitions st) (clipboard st) (toasts st)
    (next_id st).

Definition set_acquisitions (f : gmap nat Await → gmap nat Await) (st : Call) : Call :=
  mkCall (callState st) (micEnabled st) (audioEnabled st) (roomInput st) (peers st)
    (localStreamRef st) (callTimerRef st) (live_tracks st) (disabled_tracks st)
    (closed_connections st) (timers st) (f (acquisitions st)) (clipboard st) (toasts st)
    (next_id st).

Definition set_clipboard (c : option string) (st : Call) : Call :=
  mkCall (callState st) (micEnabled st) (audioEnabled st) (roomInput st) (peers st)
    (localStreamRef st) (callTimerRef st) (live_tracks st) (disabled_tracks st)
    (closed_connections st) (timers st) (acquisitions st) c (toasts st)
    (next_id st).

Definition toast (t : Toast) (st : Call) : Call :=
  mkCall (callState st) (micEnabled st) (audioEnabled st) (roomInput st) (peers st)
    (localStreamRef st) (callTimerRef st) (live_tracks st) (disabled_tracks st)
    (closed_connections st) (timers st) (acquisitions st) (clipboard st) (toasts st ++ [t])
    (next_id st).

Definition set_next_id (f : nat → nat) (st : Call) : Call :=
  mkCall (callState st) (micEnabled st) (audioEnabled st) (roomInput st) (peers st)
    (localStreamRef st) (callTimerRef st) (live_tracks st) (disabled_tracks st)
    (closed_connections st) (timers st) (acquisitions st) (clipboard st) (toasts st)
    (f (next_id st)).

Definition initialCallState : CallState :=
  {| isInCall := false; isConnecting := false; callDuration := 0;
     roomId := EmptyString; isHost := false |}.

Definition formatCallDuration (seconds : nat) : string :=
  let hours := seconds / 3600 in
  let mins := (seconds mod 3600) / 60 in
  let secs := seconds mod 60 in
  if decide (0 < hours) then
    Number_toString hours +:+ ":" +:+ padStart 2 "0" (Number_toString mins) +:+ ":" +:+
    padStart 2 "0" (Number_toString secs)
  else
    padStart 2 "0" (Number_toString mins) +:+ ":" +:+ padStart 2 "0" (Number_toString secs).

Definition startCallTimer (st : Call) : Call :=
  let id := next_id st in
  set_callTimerRef (Some id) (set_next_id S (set_timers (λ ts, {[id]} ∪ ts) st)).

(** The callback [startCallTimer] hands to [setInterval]. *)
Definition timer_callback (st : Call) : Call :=
  setCallState (λ prev,
    {| isInCall := isInCall prev; isConnecting := isConnecting prev;
       callDuration := callDuration prev + 1;
       roomId := roomId prev; isHost := isHost prev |}) st.

Definition stopCallTimer (st : Call) : Call :=
  match callTimerRef st with
  | Some id => set_callTimerRef None (set_timers (λ ts, ts ∖ {[id]}) st)
  | None => st
  end.

(** [track.stop()] for every track of the list. *)
Definition stop_tracks (s : MediaStream) (st : Call) : Call :=
  set_live_tracks (λ ls, ls ∖ list_to_set s) st.

(** [createRoom] up to [await initializeLocalStream()]. *)
Definition createRoom (generated : string) (st : Call) : Call :=
  let st := setCallState (λ prev,
    {| isInCall := isInCall prev; isConnecting := true;
       callDuration := callDuration prev; roomId := roomId prev;
       isHost := isHost prev |}) st in
  let roomId := generated in
  let k := next_id st in
  set_next_id S (set_acquisitions (λ ps, <[k := AwaitCreate roomId]> ps) st).

Section Trim.

Variable trim : string → string.

(** [joinRoom] up to [await initializeLocalStream()]. *)
Definition joinRoom (st : Call) : Call :=
  if decide (trim (roomInput st) = EmptyString) then
    toast {| title := "Room ID Required";
             description := Some "Please enter a room ID to join a call.";
             destructive := true |} st
  else
    let st' := setCallState (λ prev,
      {| isInCall := isInCall prev; isConnecting := true;
         callDuration := callDuration prev; roomId := roomId prev;
         isHost := isHost prev |}) st in
    let k := next_id st' in
    set_next_id S (set_acquisitions (λ ps, <[k := AwaitJoin (roomInput st)]> ps) st').

(** The [catch] blocks of [createRoom] and [joinRoom]. *)
Definition connect_catch (failure : string) (st : Call) : Call :=
  let st := setCallState (λ prev,
    {| isInCall := isInCall prev; isConnecting := false;
       callDuration := callDuration prev; roomId := roomId prev;
       isHost := isHost prev |}) st in
  toast {| title := failure;
           description := Some "Please check your microphone permissions and try again.";
           destructive := true |} st.

(** [createRoom] and [joinRoom] resumed when [getUserMedia] settles;
    [initializeLocalStream] stores the stream, or rethrows. *)
Definition connect_settled (k : nat) (o : Settlement) (st : Call) : Call :=
  match acquisitions st !! k with
  | None => st
  | Some suspended =>
      let st := set_acquisitions (λ ps, delete k ps) st in
      match o with
      | Granted n =>
          let stream := seq (next_id st) n in
          let st := set_next_id (λ i, i + n)
                      (set_live_tracks (λ ls, list_to_set stream ∪ ls) st) in
          let st := set_localStreamRef (Some stream) st in
          match suspended with
          | AwaitCreate generated =>
              let st := setCallState (λ prev,
                {| isInCall := true; isConnecting := false; callDuration := 0;
                   roomId := generated; isHost := true |}) st in
              let st := startCallTimer st in
              toast {| title := "Room Created";
                       description := Some ("Room ID: " +:+ generated +:+
                                            ". Share this with others to join the call.");
                       destructive := false |} st
          | AwaitJoin input =>
              let st := setCallState (λ prev,
                {| isInCall := true; isConnecting := false; callDuration := 0;
                   roomId := trim input; isHost := false |}) st in
              let st := startCallTimer st in
              toast {| title := "Joined Room";
                       description := Some ("Connected to room: " +:+ trim input);
                       destructive := false |} st
          end
      | Rejected =>
          match suspended with
          | AwaitCreate _ => connect_catch "Failed to Create Room" st
          | AwaitJoin _ => connect_catch "Failed to Join Room" st
          end
      end
  end.

Definition leaveCall (st : Call) : Call :=
  let st :=
    match localStreamRef st with
    | Some s => set_localStreamRef None (stop_tracks s st)
    | None => st
    end in
  let st :=
    foldl (λ st peer,
      let st := set_closed_connections (λ cs, {[connection peer]} ∪ cs) st in
      match stream peer with
      | Some s => stop_tracks s st
      | None => st
      end) st (peers st) in
  let st := setPeers [] st in
  let st := stopCallTimer st in
  let st := setCallState (λ _, initialCallState) st in
  toast {| title := "Call Ended";
           description := Some "You have left the voice call.";
           destructive := false |} st.

Definition toggleMicrophone (st : Call) : Call :=
  match localStreamRef st with
  | Some (audioTrack :: _) =>
      let st' :=
        if negb (micEnabled st)
        then set_disabled_tracks (λ ds, ds ∖ {[audioTrack]}) st
        else set_disabled_tracks (λ ds, {[audioTrack]} ∪ ds) st in
      let st' := setMicEnabled (negb (micEnabled st)) st' in
      toast {| title := if micEnabled st then "Microphone Muted" else "Microphone Unmuted";
               description := Some (if micEnabled st then "Your microphone is now muted"
                                    else "Your microphone is now active");
               destructive := false |} st'
  | _ => st
  end.

Definition copyRoomId (st : Call) : Call :=
  if decide (roomId (callState st) = EmptyString) then st
  else
    let st := set_clipboard (Some (roomId (callState st))) st in
    toast {| title := "Room ID Copied";
             description := Some "The room ID has been copied to your clipboard.";
             destructive := false |} st.

Inductive Event :=
| ClickCreate (generated : string)
| ClickJoin
| AcquisitionSettles (k : nat) (o : Settlement)
| ClickLeave
| ClickMicrophone
| ClickCopy
| TypeRoom (s : string)
| TimerFires (id : nat).

(** One turn of the event loop.  The room input is [disabled] while
    connecting. *)
Definition step (st : Call) (e : Event) : Call :=
  match e with
  | ClickCreate generated => createRoom generated st
  | ClickJoin => joinRoom st
  | AcquisitionSettles k o => connect_settled k o st
  | ClickLeave => leaveCall st
  | ClickMicrophone => toggleMicrophone st
  | ClickCopy => copyRoomId st
  | TypeRoom s => if isConnecting (callState st) then st else setRoomInput s st
  | TimerFires id => if decide (id ∈ timers st) then timer_callback st else st
  end.

Definition run (st : Call) (es : list Event) : Call := foldl step st es.

(** What the rendered buttons allow: Create and Join while not in a call
    and not connecting (Join only with a non-blank room id), Leave and the
    microphone button while in a call. *)
Definition rendered (st : Call) (e : Event) : bool :=
  match e with
  | ClickCreate _ =>
      negb (isInCall (callState st)) && negb (isConnecting (callState st))
  | ClickJoin =>
      negb (isInCall (callState st)) && negb (isConnecting (callState st)) &&
      negb (bool_decide (trim (roomInput st) = EmptyString))
  | ClickLeave | ClickMicrophone => isInCall (callState st)
  | TypeRoom _ => negb (isInCall (callState st))
  | _ => true
  end.

Fixpoint through_the_buttons (st : Call) (es : list Event) : bool :=
  match es with
  | [] => true
  | e :: es' => rendered st e && through_the_buttons (step st e) es'
  end.

End Trim.

Definition mounted : Call :=
  {| callState := initialCallState; micEnabled := true; audioEnabled := true;
     roomInput := EmptyString; peers := []; localStreamRef := None; callTimerRef := None;
     live_tracks := ∅; disabled_tracks := ∅; closed_connections := ∅; timers := ∅;
     acquisitions := ∅; clipboard := None; toasts := []; next_id := 1 |}.

(** The tick and the tracks the component keeps handles of. *)
Definition tracked_timer (st : Call) : gset nat :=
  match callTimerRef st with
  | Some id => {[id]}
  | None => ∅
  end.

Definition held_tracks (st : Call) : gset nat :=
  match localStreamRef st with
  | Some s => list_to_set s
  | None => ∅
  end.

(** What the buttons maintain. *)
Record Tidy (st : Call) : Prop := {
  tidy_timers : timers st = tracked_timer st;
  tidy_tracks : live_tracks st = held_tracks st;
  tidy_peers : peers st = [];
  tidy_idle :
    isInCall (callState st) = false → localStreamRef st = None ∧ callTimerRef st = None;
  tidy_pending :
    if isConnecting (callState st)
    then isInCall (callState st) = false ∧ ∃ k a, acquisitions st = {[k := a]}
    else acquisitions st = ∅
}.

(** A platform stand-in for [trim] that finds no white space to remove,
    and two event sequences: a call that is created, muted and left, and
    a call in progress. *)
Definition trim_nothing (s : string) : string := s.


Definition call_in_progress : list Event :=
  [TypeRoom "k3x9"; ClickJoin; AcquisitionSettles 1 (Granted 1); TimerFires 3].

End VoiceCall.

(** ** Proof tactics *)

Ltac fresh_id :=
  match goal with
  | H : ∀ k, is_Some (acquisitions _ !! k) → k < _ |- ∀ k, is_Some _ → _ =>
      let k := fresh "k" in let Hk := fresh "Hk" in
      intros k Hk; specialize (H k Hk); lia
  end.

Ltac open_studio st :=
  destruct st as [[irec ipau dur blob tr mp proc] mic mode ref sref chunks iref
                  [recs lt tm acq stq tmo trn urls dls tsts nid]];
  simpl in *.

Ltac unfold_handlers :=
  unfold startRecording, startRecording_settled, startRecording_record,
    startRecording_catch, pauseRecording, stopRecording, run_stop_task, recorder_ends, onstop,
    ondataavailable, startTimer, stopTimer, timer_callback, timeout_callback,
    processRecordingForTranscript, processRecordingForTranscript_resumed,
    downloadRecording, downloadTranscript, save_as, toast, final_state,
    createObjectURL, anchor_click, revokeObjectURL,
    MediaRecorder_stop, MediaRecorder_pause, MediaRecorder_resume, MediaRecorder_start,
    new_MediaRecorder, grant_stream, stop_tracks, setInterval, clearInterval in *.

Ltac step_case :=
  match goal with
  | |- context [<[?k:=?v]> ?m !! ?k] => rewrite (lookup_insert_eq m k v)
  | H : ?x = _ |- context [match ?x with _ => _ end] => rewrite H
  | |- context [match ?x with _ => _ end] => is_var x; destruct x
  | |- context [match seq _ ?n with _ => _ end] => is_var n; destruct n
  | |- context [match ?q ++ _ with _ => _ end] => is_var q; destruct q
  | |- context [match ?m !! ?k with _ => _ end] =>
      let H := fresh "Hlk" in destruct (m !! k) eqn:H
  | |- context [match recordedBlob ?r with _ => _ end] =>
      let H := fresh "Hblob" in destruct (recordedBlob r) eqn:H
  | |- context [decide ?P] => destruct (decide P)
  end; simpl.

Ltac step_cases st e :=
  destruct e; simpl; unfold_handlers; open_studio st; simpl; repeat step_case.

(** ** Preservation of the invariants *)

Lemma Inv_mounted : Inv mounted.
Proof.
  split; simpl; try done.
  intros k [? H]. by rewrite lookup_empty in H.
Qed.

Lemma step_next_id st e : next_id (browser st) ≤ next_id (browser (step st e)).
Proof. step_cases st e; lia. Qed.

(** The events that leave the session alone. *)
Lemma step_session_other st e :
  match e with
  | TimerFires _ | DataAvailable _ _ | ClickDownload _ | ClickDownloadTranscript _ _
  | ClickMicrophone | ClickCaptureMode _ | TimeoutFires | TranscriptionResolves =>
      isRecording (recordingState (step st e)) = isRecording (recordingState st) ∧
      isPaused (recordingState (step st e)) = isPaused (recordingState st) ∧
      recordedBlob (recordingState (step st e)) = recordedBlob (recordingState st) ∧
      mediaRecorderRef (step st e) = mediaRecorderRef st ∧
      streamRef (step st e) = streamRef st ∧
      intervalRef (step st e) = intervalRef st ∧
      recorders (browser (step st e)) = recorders (browser st) ∧
      stop_tasks (browser (step st e)) = stop_tasks (browser st) ∧
      timers (browser (step st e)) = timers (browser st) ∧
      acquisitions (browser (step st e)) = acquisitions (browser st)
  | _ => True
  end.
Proof. step_cases st e; done. Qed.

Lemma Inv_frame st st' :
  Inv st →
  Forall nonempty (chunksRef st') →
  isRecording (recordingState st') = isRecording (recordingState st) →
  isPaused (recordingState st') = isPaused (recordingState st) →
  recordedBlob (recordingState st') = recordedBlob (recordingState st) →
  mediaRecorderRef st' = mediaRecorderRef st →
  intervalRef st' = intervalRef st →
  recorders (browser st') = recorders (browser st) →
  stop_tasks (browser st') = stop_tasks (browser st) →
  (∀ k, is_Some (acquisitions (browser st') !! k) → k < next_id (browser st')) →
  Inv st'.
Proof.
  intros [] Hc Hrec Hpau Hb Hr Hi Hrs Hq Hk.
  split; rewrite ?Hrec, ?Hpau, ?Hb, ?Hr, ?Hi, ?Hrs, ?Hq; auto.
Qed.

Lemma Inv_ondataavailable d st : Inv st → Inv (ondataavailable d st).
Proof.
  intros HI. unfold ondataavailable. case_decide; [|done].
  apply (Inv_frame st _ HI); [|done..|apply (inv_fresh _ HI)].
  simpl. apply Forall_app. split; [apply (inv_chunks _ HI) | by apply Forall_singleton].
Qed.

Lemma Inv_startRecording st : Inv st → Inv (startRecording st).
Proof.
  intros HI. apply (Inv_frame st _ HI); [apply (inv_chunks _ HI)|done..|].
  simpl. intros k [a Hk]. destruct (decide (k = next_id (browser st))) as [->|Hne]; [lia|].
  rewrite lookup_insert_ne in Hk by done.
  pose proof (inv_fresh _ HI k (ex_intro _ a Hk)). lia.
Qed.

Lemma Inv_startRecording_record mode stream st :
  Inv st → Inv (startRecording_record mode stream st).
Proof.
  intros []. split; simpl; auto; try done.
  - intros _. eexists. split; [done|]. right. by rewrite lookup_insert_eq.
  - intros k Hk. specialize (inv_fresh0 k Hk). lia.
Qed.

Lemma Inv_startRecording_settled k o st : Inv st → Inv (startRecording_settled k o st).
Proof.
  intros HI. unfold startRecording_settled.
  destruct (acquisitions (browser st) !! k) as [suspended|] eqn:Hk; [|done].
  assert (Hlt : k < next_id (browser st)) by (apply (inv_fresh _ HI); by eexists).
  assert (Hold : ∀ k', is_Some (delete k (acquisitions (browser st)) !! k') →
                       k' < next_id (browser st)).
  { intros k' [a Ha]. apply lookup_delete_Some in Ha as [_ Ha].
    apply (inv_fresh _ HI). by eexists. }
  assert (Hdel : ∀ n, Inv (with_browser (λ _, (grant_stream n
            (browser (with_browser (set_acquisitions (λ ps, delete k ps)) st))).2)
            (with_browser (set_acquisitions (λ ps, delete k ps)) st))).
  { intros n. apply (Inv_frame st _ HI); [apply (inv_chunks _ HI)|done..|].
    simpl. intros k' Hk'. specialize (Hold k' Hk'). lia. }
  assert (Hcatch : Inv (startRecording_catch
            (with_browser (set_acquisitions (λ ps, delete k ps)) st))).
  { apply (Inv_frame st _ HI); [apply (inv_chunks _ HI)|done..|]. simpl. apply Hold. }
  destruct suspended as [mode mic|mode stream|mode c], o as [n|]; simpl; try done.
  - destruct mic.
    + apply (Inv_frame st _ HI); [apply (inv_chunks _ HI)|done..|].
      simpl. intros k' [a Ha]. destruct (decide (k' = k)) as [->|Hne]; [lia|].
      rewrite lookup_insert_ne in Ha by done.
      assert (k' < next_id (browser st)) by (apply Hold; by eexists). lia.
    + apply Inv_startRecording_record, (Hdel n).
  - destruct n as [|n]; simpl.
    + apply (Inv_frame st _ HI); [apply (inv_chunks _ HI)|done..|].
      simpl. intros k' Hk'. specialize (Hold k' Hk'). lia.
    + apply Inv_startRecording_record, (Hdel (S n)).
  - apply Inv_startRecording_record, (Hdel n).
Qed.

Lemma tracked_recorder st r :
  Inv st → mediaRecorderRef st = Some r → is_Some (recorders (browser st) !! r).
Proof.
  intros HI Hr. destruct (isRecording (recordingState st)) eqn:Hrec.
  - destruct (inv_recording _ HI Hrec) as (r' & Hr' & Hst).
    rewrite Hr in Hr'. injection Hr' as <-. destruct Hst as [-> | ->]; by eexists.
  - rewrite (inv_stopped _ HI Hrec r Hr). by eexists.
Qed.

Lemma Inv_pauseRecording st : Inv st → Inv (final_state (pauseRecording st)).
Proof.
  intros HI. unfold pauseRecording.
  destruct (mediaRecorderRef st) as [r|] eqn:Hr; [|done].
  destruct (isRecording (recordingState st)) eqn:Hrec; [|done].
  destruct (inv_recording _ HI Hrec) as (r' & Hr' & Hst).
  rewrite Hr in Hr'. injection Hr' as <-.
  unfold MediaRecorder_resume, MediaRecorder_pause.
  destruct Hst as [Hst|Hst]; rewrite Hst.
  { by destruct (isPaused (recordingState st)). }
  destruct (isPaused (recordingState st)) eqn:Hp; simpl.
  - destruct HI. split; simpl; auto; try done; try (intros; congruence); try fresh_id.
    intros _. exists r. split; [done|]. right. by rewrite lookup_insert_eq.
  - destruct HI. unfold stopTimer. simpl.
    destruct (intervalRef st) eqn:Hi; split; simpl; rewrite ?Hi; auto; try done;
      try (intros; congruence).
    all: try (intros _; exists r; split; [done|]; right; by rewrite lookup_insert_eq).
    all: try (intros [? [=]]).
Qed.

Lemma Inv_stopRecording st : Inv st → Inv (final_state (stopRecording st)).
Proof.
  intros HI. unfold stopRecording.
  destruct (mediaRecorderRef st) as [r|] eqn:Hr; [|done].
  destruct (tracked_recorder st r HI Hr) as [s Hs].
  assert (Hr' : recorders (browser (with_browser (MediaRecorder_stop r) st)) !! r = Some inactive).
  { unfold MediaRecorder_stop. simpl. rewrite Hs.
    destruct s; simpl; rewrite ?lookup_insert_eq; done. }
  destruct HI. unfold stopTimer. simpl.
  destruct (intervalRef st) eqn:Hi; split; simpl; rewrite ?Hi; auto; try done;
    try (intros; congruence); try fresh_id.
  all: try (intros _ r0 Hr0; rewrite Hr in Hr0; injection Hr0 as <-; exact Hr').
  all: try (intros [? [=]]).
  all: try (unfold MediaRecorder_stop; destruct (recorders (browser st) !! r) as [[]|];
            simpl; fresh_id).
Qed.

Lemma Inv_onstop st : Inv st → is_Some (mediaRecorderRef st) → Inv (onstop st).
Proof.
  intros HI [r Hr]. unfold onstop. simpl.
  destruct HI. destruct (streamRef st); split; simpl; auto; intros; congruence.
Qed.

Lemma Inv_run_stop_task final st : Inv st → Inv (run_stop_task final st).
Proof.
  intros HI. unfold run_stop_task.
  destruct (stop_tasks (browser st)) as [|r q] eqn:Hq; [done|].
  assert (Hr : is_Some (mediaRecorderRef st)).
  { destruct (mediaRecorderRef st) eqn:Hr; [by eexists|].
    destruct (inv_idle _ HI Hr) as (_ & ? & _). congruence. }
  apply Inv_onstop; [|by unfold ondataavailable; case_decide].
  apply Inv_ondataavailable.
  pose proof Hr as [r0 Hr0].
  destruct HI. split; simpl; auto. intros; congruence.
Qed.

Lemma Inv_recorder_ends r final st : Inv st → Inv (recorder_ends r final st).
Proof.
  intros HI. unfold recorder_ends.
  assert (Hgo : is_Some (recorders (browser st) !! r) →
            Inv (onstop (ondataavailable final
                   (with_browser (set_recorders (λ rs, <[r := inactive]> rs)) st)))).
  { intros Hsome.
    assert (Hr : is_Some (mediaRecorderRef st)).
    { destruct (mediaRecorderRef st) eqn:Hr; [by eexists|].
      destruct (inv_idle _ HI Hr) as (_ & _ & He).
      rewrite He, lookup_empty in Hsome. by destruct Hsome. }
    apply Inv_onstop; [|by unfold ondataavailable; case_decide].
    apply Inv_ondataavailable.
    pose proof Hr as [r0 Hr0].
    destruct HI. split; simpl; auto; try (intros; congruence).
    - intros Hrec. destruct (inv_recording0 Hrec) as (r1 & Hr1 & Hst).
      exists r1. split; [done|].
      destruct (decide (r = r1)) as [->|Hne].
      + left. by rewrite lookup_insert_eq.
      + by rewrite lookup_insert_ne.
    - intros Hrec r1 Hr1.
      destruct (decide (r = r1)) as [->|Hne].
      + by rewrite lookup_insert_eq.
      + rewrite lookup_insert_ne by done. by apply inv_stopped0. }
  destruct (recorders (browser st) !! r) as [[]|]; try done; apply Hgo; by eexists.
Qed.

Lemma save_as_eq blob name st :
  save_as blob name st =
  with_browser (λ b,
    set_next_id S
      (set_object_urls (λ us, delete (next_id b) (<[next_id b := blob]> us))
         (set_downloads (λ ds, ds ++ [(name, blob)]) b))) st.
Proof.
  unfold save_as, createObjectURL, anchor_click, revokeObjectURL, with_browser,
    set_next_id, set_object_urls, set_downloads. simpl.
  rewrite lookup_insert_eq. reflexivity.
Qed.

Lemma Inv_step st e : Inv st → Inv (step st e).
Proof.
  intros HI.
  pose proof (step_session_other st e) as Hother.
  pose proof (step_next_id st e) as Hid.
  destruct e; simpl.
  - by apply Inv_startRecording.
  - by apply Inv_startRecording_settled.
  - by apply Inv_pauseRecording.
  - by apply Inv_stopRecording.
  - by apply Inv_run_stop_task.
  - by apply Inv_recorder_ends.
  - case_decide; [|done]. apply (Inv_frame st _ HI);
      [apply (inv_chunks _ HI) | done.. | apply (inv_fresh _ HI)].
  - destruct (recorders (browser st) !! recorder) as [[]|]; try done;
      try case_decide; try done; by apply Inv_ondataavailable.
  - destruct Hother as (? & ? & ? & ? & ? & ? & ? & ? & ? & Ha).
    apply (Inv_frame st _ HI); [|done..|].
    + unfold downloadRecording. destruct (recordedBlob (recordingState st)); [|apply HI].
      rewrite save_as_eq. apply HI.
    + intros k Hk. simpl in Ha, Hid. rewrite Ha in Hk.
      pose proof (inv_fresh _ HI k Hk). lia.
  - destruct Hother as (? & ? & ? & ? & ? & ? & ? & ? & ? & Ha).
    apply (Inv_frame st _ HI); [|done..|].
    + unfold downloadTranscript. case_decide; rewrite save_as_eq; apply HI.
    + intros k Hk. simpl in Ha, Hid. rewrite Ha in Hk.
      pose proof (inv_fresh _ HI k Hk). lia.
  - destruct (isRecording (recordingState st)); [done|].
    apply (Inv_frame st _ HI); [apply (inv_chunks _ HI) | done.. | apply (inv_fresh _ HI)].
  - destruct (isRecording (recordingState st)); [done|].
    apply (Inv_frame st _ HI); [apply (inv_chunks _ HI) | done.. | apply (inv_fresh _ HI)].
  - destruct Hother as (? & ? & ? & ? & ? & ? & ? & ? & ? & Ha).
    apply (Inv_frame st _ HI); [|done..|].
    + unfold timeout_callback, processRecordingForTranscript.
      destruct (timeouts (browser st)) as [|render q]; [apply HI|].
      destruct (recordedBlob render); apply HI.
    + intros k Hk. simpl in Ha, Hid. rewrite Ha in Hk.
      pose proof (inv_fresh _ HI k Hk). lia.
  - destruct Hother as (? & ? & ? & ? & ? & ? & ? & ? & ? & Ha).
    apply (Inv_frame st _ HI); [|done..|].
    + unfold processRecordingForTranscript_resumed.
      destruct (transcriptions (browser st)); apply HI.
    + intros k Hk. simpl in Ha, Hid. rewrite Ha in Hk.
      pose proof (inv_fresh _ HI k Hk). lia.
Qed.

Lemma Inv_run es : ∀ st, Inv st → Inv (run st es).
Proof.
  induction es as [|e es IH]; intros st HI; [done|].
  apply IH, Inv_step, HI.
Qed.

Lemma Inv_reachable es : Inv (run mounted es).
Proof. apply Inv_run, Inv_mounted. Qed.

Lemma SeqInv_mounted : SeqInv mounted.
Proof. split; [done | by left]. Qed.

Lemma interval_idle st :
  Inv st → isRecording (recordingState st) = false → intervalRef st = None.
Proof.
  intros HI Hrec. destruct (intervalRef st) eqn:Hi; [|done].
  destruct (inv_interval _ HI) as [? _]; [by eexists | congruence].
Qed.

Lemma interval_paused st :
  Inv st → isPaused (recordingState st) = true → intervalRef st = None.
Proof.
  intros HI Hrec. destruct (intervalRef st) eqn:Hi; [|done].
  destruct (inv_interval _ HI) as [_ ?]; [by eexists | congruence].
Qed.

Lemma SeqInv_frame st st' :
  SeqInv st →
  timers (browser st') = timers (browser st) →
  intervalRef st' = intervalRef st →
  acquisitions (browser st') = acquisitions (browser st) →
  isRecording (recordingState st') = isRecording (recordingState st) →
  SeqInv st'.
Proof.
  intros [Ht Hp] H1 H2 H3 H4. split.
  - unfold tracked_timer in *. by rewrite H1, H2.
  - by rewrite H3, H4.
Qed.

Lemma SeqInv_startRecording_record mode stream st :
  Inv st → SeqInv st → isRecording (recordingState st) = false →
  acquisitions (browser st) = ∅ →
  SeqInv (startRecording_record mode stream st).
Proof.
  intros HI [Ht Hp] Hrec Hacq. pose proof (interval_idle _ HI Hrec) as Hi.
  unfold tracked_timer in Ht. rewrite Hi in Ht.
  split; simpl.
  - rewrite Ht. unfold tracked_timer. simpl. apply union_empty_r_L.
  - by left.
Qed.

(** What a stop request does at once: the flags, the tick and the
    recorder's state; the artifact, the chunks and the stream are left to
    the recorder's notification. *)
Lemma stop_frame st r :
  mediaRecorderRef st = Some r →
  let st' := step st ClickStop in
  isRecording (recordingState st') = false ∧
  isPaused (recordingState st') = false ∧
  duration (recordingState st') = duration (recordingState st) ∧
  recordedBlob (recordingState st') = recordedBlob (recordingState st) ∧
  mediaRecorderRef st' = Some r ∧
  streamRef st' = streamRef st ∧
  chunksRef st' = chunksRef st ∧
  intervalRef st' = None ∧
  timers (browser st') = timers (browser st) ∖ tracked_timer st ∧
  acquisitions (browser st') = acquisitions (browser st) ∧
  live_tracks (browser st') = live_tracks (browser st) ∧
  recorders (browser st') = recorders (MediaRecorder_stop r (browser st)) ∧
  stop_tasks (browser st') = stop_tasks (MediaRecorder_stop r (browser st)).
Proof.
  intros Hr. unfold tracked_timer. simpl.
  unfold stopRecording, stopTimer, MediaRecorder_stop.
  open_studio st. subst.
  destruct iref; simpl; destruct (recs !! r) as [[]|] eqn:Hst; simpl.
  all: repeat split; simpl; try done.
  all: by rewrite difference_empty_L.
Qed.

(** What the two notifications of a stopping recorder do: the last data
    is appended if it is not empty, the artifact is the blob of the chunks
    then held, and the tracks of the stream [streamRef] holds are
    stopped. *)
Lemma notification_frame final st :
  let st' := onstop (ondataavailable final st) in
  isRecording (recordingState st') = isRecording (recordingState st) ∧
  isPaused (recordingState st') = isPaused (recordingState st) ∧
  duration (recordingState st') = duration (recordingState st) ∧
  mediaRecorderRef st' = mediaRecorderRef st ∧
  intervalRef st' = intervalRef st ∧
  timers (browser st') = timers (browser st) ∧
  acquisitions (browser st') = acquisitions (browser st) ∧
  recorders (browser st') = recorders (browser st) ∧
  stop_tasks (browser st') = stop_tasks (browser st) ∧
  chunksRef st' = chunksRef st ++ (if decide (0 < Blob_size final) then [final] else []) ∧
  recordedBlob (recordingState st') =
    Some (new_Blob (map PartBlob (chunksRef st')) "video/webm") ∧
  streamRef st' = None ∧
  live_tracks (browser st') =
    live_tracks (browser st) ∖
      match streamRef st with Some stream => list_to_set stream | None => ∅ end.
Proof.
  simpl. unfold onstop, ondataavailable.
  open_studio st. case_decide; destruct sref; simpl.
  all: repeat split; simpl; rewrite ?app_nil_r, ?difference_empty_L; done.
Qed.

Lemma step_notification st e :
  match e with
  | RecorderStops _ | RecorderEnds _ _ =>
      isRecording (recordingState (step st e)) = isRecording (recordingState st) ∧
      isPaused (recordingState (step st e)) = isPaused (recordingState st) ∧
      duration (recordingState (step st e)) = duration (recordingState st) ∧
      mediaRecorderRef (step st e) = mediaRecorderRef st ∧
      intervalRef (step st e) = intervalRef st ∧
      timers (browser (step st e)) = timers (browser st) ∧
      acquisitions (browser (step st e)) = acquisitions (browser st)
  | _ => True
  end.
Proof. step_cases st e; done. Qed.

Lemma SeqInv_step st e :
  Inv st → SeqInv st →
  match e with ClickStart => start_admitted st = true | _ => True end →
  SeqInv (step st e).
Proof.
  intros HI HS Hadm.
  pose proof (step_session_other st e) as Hother.
  pose proof (step_notification st e) as Hnote.
  destruct e;
    try (destruct Hother as (? & ? & ? & ? & ? & ? & ? & ? & ? & ?); by apply (SeqInv_frame st));
    try (destruct Hnote as (? & ? & ? & ? & ? & ? & ?); by apply (SeqInv_frame st));
    simpl.
  - apply andb_prop in Hadm as [Hrec Hacq].
    apply negb_true_iff in Hrec. apply bool_decide_eq_true in Hacq.
    destruct HS as [Ht _]. split; simpl; [done|].
    right. split; [done|]. rewrite Hacq. do 2 eexists. apply insert_empty.
  - unfold startRecording_settled.
    destruct (acquisitions (browser st) !! k) as [suspended|] eqn:Hk; [|done].
    destruct HS as [Ht [Hp | (Hrec & k0 & a & Hp)]].
    { rewrite Hp, lookup_empty in Hk. done. }
    rewrite Hp in Hk. apply lookup_singleton_Some in Hk as [-> ->].
    pose proof (interval_idle _ HI Hrec) as Hi.
    assert (Hbase : ∀ n, SeqInv (with_browser (λ _, (grant_stream n
              (browser (with_browser (set_acquisitions (λ ps, delete k ps)) st))).2)
              (with_browser (set_acquisitions (λ ps, delete k ps)) st))).
    { intros n. split; simpl; [done|]. left. rewrite Hp. apply delete_singleton_eq. }
    assert (HbaseI : ∀ n, Inv (with_browser (λ _, (grant_stream n
              (browser (with_browser (set_acquisitions (λ ps, delete k ps)) st))).2)
              (with_browser (set_acquisitions (λ ps, delete k ps)) st))).
    { intros n. apply (Inv_frame st _ HI); [apply (inv_chunks _ HI)|done..|].
      simpl. rewrite Hp, delete_singleton_eq. intros ? [? H]. by rewrite lookup_empty in H. }
    assert (Hcatch : SeqInv (startRecording_catch
              (with_browser (set_acquisitions (λ ps, delete k ps)) st))).
    { split; simpl; [done|]. left. rewrite Hp. apply delete_singleton_eq. }
    destruct suspended as [mode mic|mode stream|mode c], o as [n|]; simpl; try done.
    + destruct mic.
      * split; simpl; [done|]. right. split; [done|].
        rewrite Hp, delete_singleton_eq. do 2 eexists. apply insert_empty.
      * apply SeqInv_startRecording_record; simpl; auto.
        -- apply (HbaseI n).
        -- apply (Hbase n).
        -- rewrite Hp. apply delete_singleton_eq.
    + destruct n as [|n]; simpl.
      * destruct (Hbase 0) as [H1 H2]. split; simpl; auto.
      * apply SeqInv_startRecording_record; simpl; auto.
        -- apply (HbaseI (S n)).
        -- apply (Hbase (S n)).
        -- rewrite Hp. apply delete_singleton_eq.
    + apply SeqInv_startRecording_record; simpl; auto.
      * apply (HbaseI n).
      * apply (Hbase n).
      * rewrite Hp. apply delete_singleton_eq.
  - unfold pauseRecording.
    destruct (mediaRecorderRef st) as [r|] eqn:Hr; [|done].
    destruct (isRecording (recordingState st)) eqn:Hrec; [|done].
    destruct (inv_recording _ HI Hrec) as (r' & Hr' & Hst).
    rewrite Hr in Hr'. injection Hr' as <-.
    unfold MediaRecorder_resume, MediaRecorder_pause.
    destruct Hst as [Hst|Hst]; rewrite Hst.
    { by destruct (isPaused (recordingState st)). }
    destruct HS as [Ht Hp].
    assert (Hacq : acquisitions (browser st) = ∅).
    { destruct Hp as [|[? _]]; [done | congruence]. }
    unfold tracked_timer in Ht.
    destruct (isPaused (recordingState st)) eqn:Hpau; simpl.
    + rewrite (interval_paused _ HI Hpau) in Ht.
      split; simpl; [|by left]. rewrite Ht. unfold tracked_timer. simpl.
      apply union_empty_r_L.
    + unfold stopTimer. simpl.
      destruct (intervalRef st) eqn:Hi; split; simpl; try (by left).
      * rewrite Ht. unfold tracked_timer. simpl. apply difference_diag_L.
      * rewrite Ht. unfold tracked_timer. simpl. by rewrite Hi.
  - destruct (mediaRecorderRef st) as [r|] eqn:Hr.
    2:{ unfold stopRecording. by rewrite Hr. }
    destruct (stop_frame st r Hr) as (Hrec & _ & _ & _ & _ & _ & _ & Hi & Ht & Hacq & _).
    destruct HS as [Hts Hp]. fold (step st ClickStop).
    split.
    + rewrite Ht, Hts. unfold tracked_timer. rewrite Hi.
      destruct (intervalRef st); [apply difference_diag_L | apply difference_empty_L].
    + rewrite Hacq. destruct Hp as [|[_ ?]]; [by left | by right].
Qed.

Lemma Seq_run es : ∀ st,
  Inv st → SeqInv st → one_start_at_a_time st es = true →
  Inv (run st es) ∧ SeqInv (run st es).
Proof.
  induction es as [|e es IH]; intros st HI HS Hes; [done|].
  simpl in Hes. apply andb_prop in Hes as [He Hes].
  apply IH; [by apply Inv_step | | done].
  apply SeqInv_step; [done..|]. by destruct e.
Qed.

Lemma Seq_reachable es :
  one_start_at_a_time mounted es = true → SeqInv (run mounted es).
Proof. intros H. by apply Seq_run; [apply Inv_mounted | apply SeqInv_mounted |]. Qed.

Lemma orderly_one_start_at_a_time es : ∀ st,
  orderly st es = true → one_start_at_a_time st es = true.
Proof.
  induction es as [|e es IH]; intros st Hes; [done|].
  simpl in *. apply andb_prop in Hes as [He Hes].
  rewrite (IH _ Hes), andb_true_r.
  destruct e; try done. by apply andb_prop in He as [-> _].
Qed.


Lemma settled_cases k o st :
  let st' := startRecording_settled k o st in
  (recordingState st' = recordingState st ∧ mediaRecorderRef st' = mediaRecorderRef st ∧
   chunksRef st' = chunksRef st ∧ intervalRef st' = intervalRef st ∧
   streamRef st' = streamRef st ∧
   timers (browser st') = timers (browser st) ∧
   recorders (browser st') = recorders (browser st)) ∨
  (∃ mode stream f, st' = startRecording_record mode stream (with_browser f st) ∧
     recorders (f (browser st)) = recorders (browser st)).
Proof.
  unfold startRecording_settled. simpl.
  destruct (acquisitions (browser st) !! k) as [suspended|]; [|by left].
  destruct suspended as [mode mic|mode stream|mode c], o as [n|]; simpl; try by left.
  - destruct mic; [by left|]. right. by eexists _, _, (λ _, _).
  - destruct n; simpl; [by left|]. right. by eexists _, _, (λ _, _).
  - right. by eexists _, _, (λ _, _).
Qed.

Lemma settled_tasks k o st :
  stop_tasks (browser (startRecording_settled k o st)) = stop_tasks (browser st).
Proof.
  unfold startRecording_settled.
  destruct (acquisitions (browser st) !! k) as [suspended|]; [|done].
  destruct suspended as [mode mic|mode stream|mode c], o as [n|]; simpl; try done.
  - by destruct mic.
  - by destruct n.
Qed.

Lemma Orderly_mounted : Orderly mounted.
Proof.
  split; simpl; try done.
  intros r. rewrite lookup_empty. by intros [|].
Qed.

Lemma Orderly_frame st st' :
  Orderly st →
  isRecording (recordingState st') = isRecording (recordingState st) →
  isPaused (recordingState st') = isPaused (recordingState st) →
  recordedBlob (recordingState st') = recordedBlob (recordingState st) →
  mediaRecorderRef st' = mediaRecorderRef st →
  streamRef st' = streamRef st →
  recorders (browser st') = recorders (browser st) →
  stop_tasks (browser st') = stop_tasks (browser st) →
  (stop_tasks (browser st) ≠ [] → acquisitions (browser st') = ∅) →
  Orderly st'.
Proof.
  intros [H1 H2 H3 H4] Hrec Hpau Hb Hr Hs Hrs Hq Ha.
  split; rewrite ?Hrec, ?Hpau, ?Hb, ?Hr, ?Hs, ?Hrs, ?Hq; auto.
  intros Hne. destruct (H2 Hne) as (_ & ? & ? & ?). auto.
Qed.

Lemma Orderly_step st e :
  Inv st → SeqInv st → Orderly st →
  match e with
  | ClickStart => start_admitted st && bool_decide (stop_tasks (browser st) = []) = true
  | RecorderEnds _ _ => False
  | _ => True
  end →
  Orderly (step st e).
Proof.
  intros HI HS HO Hadm.
  pose proof (step_session_other st e) as Hother.
  destruct e;
    try (destruct Hother as (? & ? & ? & ? & ? & ? & ? & ? & ? & Ha);
         apply (Orderly_frame st); try done; intros Hne; rewrite Ha;
         by destruct (ord_pending _ HO Hne));
    simpl; try done.
  - apply andb_prop in Hadm as [_ Hq]. apply bool_decide_eq_true in Hq.
    by apply (Orderly_frame st).
  - destruct (acquisitions (browser st) !! k) as [suspended|] eqn:Hk.
    2:{ unfold startRecording_settled. by rewrite Hk. }
    assert (Hq : stop_tasks (browser st) = []).
    { destruct (stop_tasks (browser st)) eqn:Hq; [done|].
      destruct (ord_pending _ HO) as [Ha _]; [by rewrite Hq|].
      by rewrite Ha, lookup_empty in Hk. }
    assert (Hrec : isRecording (recordingState st) = false).
    { destruct (seq_pending _ HS) as [Ha|[? _]]; [|done].
      by rewrite Ha, lookup_empty in Hk. }
    pose proof (settled_tasks k o st) as Hq'. rewrite Hq in Hq'.
    destruct (settled_cases k o st)
      as [(Hrs & Hr & _ & _ & Hs & _ & Hrc)|(mode & stream & f & Heq & Hrc)].
    + destruct HO as [H1 H2 H3 H4]. split; rewrite ?Hrs, ?Hr, ?Hs, ?Hrc, ?Hq'; try done.
      * intros; congruence.
      * intros _ _. by apply H3.
    + rewrite Heq in Hq'. rewrite Heq. simpl in Hq'.
      split; simpl; rewrite ?Hq'; try done.
      * intros _. repeat split. eexists _, _. split; [done|]. by rewrite lookup_insert_eq.
      * intros r Hact. split; [done|]. f_equal.
        destruct (decide (next_id (f (browser st)) = r)) as [|Hne]; [done|].
        rewrite !lookup_insert_ne in Hact by done. rewrite Hrc in Hact.
        destruct (ord_others _ HO r Hact). congruence.
  - unfold pauseRecording.
    destruct (mediaRecorderRef st) as [r|] eqn:Hr; [|done].
    destruct (isRecording (recordingState st)) eqn:Hrec; [|done].
    destruct (ord_recording _ HO Hrec) as (Hq & Hb & r' & stream & Hr' & Hst & Hs).
    rewrite Hr in Hr'. injection Hr' as <-.
    assert (Hothers : ∀ s r', <[r := s]> (recorders (browser st)) !! r' = Some recording ∨
                              <[r := s]> (recorders (browser st)) !! r' = Some paused →
                              true = true ∧ mediaRecorderRef st = Some r').
    { intros s r' Hact. split; [done|]. rewrite Hr. f_equal.
      destruct (decide (r = r')) as [|Hne]; [done|].
      rewrite lookup_insert_ne in Hact by done.
      destruct (ord_others _ HO r' Hact). congruence. }
    unfold MediaRecorder_resume, MediaRecorder_pause. rewrite Hst.
    destruct (isPaused (recordingState st)) eqn:Hpau; simpl.
    + split; simpl; rewrite ?Hq, ?Hrec; try done; [|apply Hothers].
      intros _. repeat split; try done. exists r, stream. by rewrite lookup_insert_eq.
    + unfold stopTimer. simpl.
      destruct (intervalRef st); split; simpl; rewrite ?Hq, ?Hrec; try done;
        try apply Hothers.
      all: intros _; repeat split; try done; exists r, stream; by rewrite lookup_insert_eq.
  - destruct (mediaRecorderRef st) as [r|] eqn:Hr.
    2:{ unfold stopRecording. by rewrite Hr. }
    destruct (stop_frame st r Hr)
      as (Hrec' & _ & _ & Hb' & Hr' & _ & _ & _ & _ & Hacq' & _ & Hrs' & Hq').
    fold (step st ClickStop). unfold MediaRecorder_stop in Hq', Hrs'.
    destruct (isRecording (recordingState st)) eqn:Hrec.
    + destruct (ord_recording _ HO Hrec) as (Hq & Hb & r' & stream & Hr0 & Hst & Hs).
      rewrite Hr in Hr0. injection Hr0 as <-.
      assert (Hq1 : stop_tasks (browser (step st ClickStop)) = [r]).
      { rewrite Hq', Hst. destruct (isPaused (recordingState st)); simpl; by rewrite Hq. }
      assert (Hrs1 : recorders (browser (step st ClickStop)) =
                     <[r := inactive]> (recorders (browser st))).
      { rewrite Hrs', Hst. by destruct (isPaused (recordingState st)). }
      split; rewrite ?Hrec', ?Hq1, ?Hb', ?Hacq'; try done.
      * intros _. repeat split; try done; [|by exists r].
        destruct (seq_pending _ HS) as [Ha|[? _]]; [done | congruence].
      * intros r' Hact. rewrite Hrs1 in Hact.
        destruct (decide (r = r')) as [<-|Hne].
        -- rewrite lookup_insert_eq in Hact. by destruct Hact.
        -- rewrite lookup_insert_ne in Hact by done.
           destruct (ord_others _ HO r' Hact). congruence.
    + rewrite (inv_stopped _ HI Hrec r Hr) in Hq', Hrs'.
      destruct HO as [H1 H2 H3 H4].
      split; rewrite ?Hrec', ?Hq', ?Hb', ?Hacq', ?Hr', ?Hrs'; try done.
      * intros Hne. destruct (H2 Hne) as (? & ? & ? & ?). done.
      * intros _ Hq _. apply H3; [done..|by eexists].
      * intros r' Hact. destruct (H4 r' Hact). congruence.
  - unfold run_stop_task.
    destruct (stop_tasks (browser st)) as [|r q] eqn:Hq; [done|].
    destruct (ord_pending _ HO) as (Ha & Hrec & Hb & r0 & Hq0); [by rewrite Hq|].
    rewrite Hq in Hq0. injection Hq0 as -> ->.
    destruct (notification_frame final (with_browser (set_stop_tasks (λ _, [])) st))
      as (Hrec' & _ & _ & Hr' & _ & _ & _ & Hrs' & Hq' & _ & Hb' & _).
    split; rewrite ?Hrec', ?Hq', ?Hb', ?Hrs', ?Hr'; simpl; try done; try congruence.
    intros r' Hact. destruct (ord_others _ HO r' Hact). congruence.
Qed.

Lemma Orderly_run es : ∀ st,
  Inv st → SeqInv st → Orderly st → orderly st es = true →
  Inv (run st es) ∧ SeqInv (run st es) ∧ Orderly (run st es).
Proof.
  induction es as [|e es IH]; intros st HI HS HO Hes; [done|].
  simpl in Hes. apply andb_prop in Hes as [He Hes].
  apply IH; [by apply Inv_step | | | done].
  - apply SeqInv_step; [done..|]. destruct e; try done. by apply andb_prop in He as [-> _].
  - apply Orderly_step; [done..|]. by destruct e.
Qed.





Lemma status_recording st :
  isRecording (recordingState st) = true →
  status st = if isPaused (recordingState st) then Paused else Recording.
Proof. unfold status. by intros ->. Qed.

Lemma status_active st :
  status st = Recording ∨ status st = Paused ↔ isRecording (recordingState st) = true.
Proof.
  unfold status. destruct (isRecording (recordingState st)).
  - destruct (isPaused (recordingState st)); split; auto.
  - destruct (mediaRecorderRef st); split; try done; intros [|]; done.
Qed.

Lemma status_stopped st :
  status st = Stopped ↔
  isRecording (recordingState st) = false ∧ is_Some (mediaRecorderRef st).
Proof.
  unfold status. destruct (isRecording (recordingState st)).
  - destruct (isPaused (recordingState st)); split; try done; intros [? _]; done.
  - destruct (mediaRecorderRef st).
    + split; [intros _; split; [done | by eexists] | done].
    + split; [done | intros [_ [? [=]]]].
Qed.

Lemma status_idle st :
  status st = Idle ↔
  isRecording (recordingState st) = false ∧ mediaRecorderRef st = None.
Proof.
  unfold status. destruct (isRecording (recordingState st)).
  - destruct (isPaused (recordingState st)); split; try done; intros [? _]; done.
  - destruct (mediaRecorderRef st); split; try done. by intros [_ ?].
Qed.

Lemma step_artifact_other st e :
  match e with
  | AcquisitionSettles _ _ | RecorderStops _ | RecorderEnds _ _ => True
  | _ => recordedBlob (recordingState (step st e)) = recordedBlob (recordingState st)
  end.
Proof. step_cases st e; done. Qed.

Lemma step_duration_other st e :
  match e with
  | TimerFires _ => True
  | _ => duration (recordingState (step st e)) ≤ duration (recordingState st)
  end.
Proof. step_cases st e; lia. Qed.

(** The two ways the artifact changes. *)
Lemma artifact_changes st e :
  finalArtifact (step st e) ≠ finalArtifact st →
  (((∃ final, e = RecorderStops final) ∨ (∃ r final, e = RecorderEnds r final)) ∧
   finalArtifact (step st e) =
     Some (new_Blob (map PartBlob (chunksRef (step st e))) "video/webm")) ∨
  (∃ k o, e = AcquisitionSettles k o ∧
     status (step st e) = Recording ∧
     finalArtifact (step st e) = None).
Proof.
  unfold finalArtifact. intros Hne.
  pose proof (step_artifact_other st e) as Hother.
  destruct e; try (exfalso; apply Hne; exact Hother).
  - right. exists k, o. split; [done|].
    destruct (settled_cases k o st) as [(Hrs & _)|(mode & stream & f & Heq & _)].
    + simpl in Hne. by rewrite Hrs in Hne.
    + simpl. rewrite Heq. done.
  - left. split; [left; by eexists|].
    revert Hne. simpl. unfold run_stop_task.
    destruct (stop_tasks (browser st)) as [|r q]; [done|]. intros _.
    apply notification_frame.
  - left. split; [right; by eexists _, _|].
    revert Hne. simpl. unfold recorder_ends.
    destruct (recorders (browser st) !! recorder) as [[]|]; try done; intros _;
      apply notification_frame.
Qed.

Lemma step_duration st e :
  duration (recordingState st) < duration (recordingState (step st e)) →
  ∃ id, e = TimerFires id ∧ id ∈ timers (browser st).
Proof.
  intros Hlt. pose proof (step_duration_other st e) as Hother.
  destruct e; try lia.
  exists id. split; [done|]. simpl in Hlt. case_decide; [done | lia].
Qed.

Lemma pauseRecording_toggles st r :
  Inv st →
  isRecording (recordingState st) = true →
  mediaRecorderRef st = Some r →
  recorders (browser st) !! r ≠ Some inactive →
  ∃ st', pauseRecording st = Returned st' ∧
         isRecording (recordingState st') = true ∧
         isPaused (recordingState st') = negb (isPaused (recordingState st)).
Proof.
  intros HI Hrec Hr Hact.
  destruct (inv_recording _ HI Hrec) as (r' & Hr' & Hst).
  rewrite Hr in Hr'. injection Hr' as <-. destruct Hst as [Hst|Hst]; [done|].
  unfold pauseRecording, MediaRecorder_resume, MediaRecorder_pause, stopTimer.
  rewrite Hr, Hrec.
  destruct (isPaused (recordingState st)); rewrite Hst; simpl.
  - eexists. split; [done|]. simpl. by rewrite Hrec.
  - destruct (intervalRef st); eexists; (split; [done|]); simpl; by rewrite Hrec.
Qed.

Lemma pauseRecording_throws st r :
  isRecording (recordingState st) = true →
  mediaRecorderRef st = Some r →
  recorders (browser st) !! r = Some inactive →
  pauseRecording st = Threw InvalidStateError st.
Proof.
  intros Hrec Hr Hst.
  unfold pauseRecording, MediaRecorder_resume, MediaRecorder_pause.
  rewrite Hr, Hrec, Hst. by destruct (isPaused (recordingState st)).
Qed.

Lemma startRecording_size st :
  Inv st →
  size (acquisitions (browser (startRecording st))) = S (size (acquisitions (browser st))).
Proof.
  intros HI. simpl. apply map_size_insert_None.
  destruct (acquisitions (browser st) !! next_id (browser st)) eqn:Hk; [|done].
  assert (next_id (browser st) < next_id (browser st)); [|lia].
  apply (inv_fresh _ HI). by eexists.
Qed.

(** ** The scenario of the specification *)

Example spec_scenario_result :
  let st := run mounted spec_scenario in
  status st = Stopped ∧ elapsedSeconds st = 5 ∧
  finalArtifact st = Some (new_Blob (map PartBlob [chunk; chunk; chunk; chunk]) "video/webm") ∧
  live_tracks (browser st) = ∅ ∧ timers (browser st) = ∅ ∧
  orderly mounted spec_scenario = true.
Proof. vm_compute. repeat split; reflexivity. Qed.

(** ** The claims *)




(** C2, refuted as stated.  Pause and resume are one handler,
    [pauseRecording], which toggles.  Issued as a resume request while the
    session is Recording (so: not Paused), it pauses the session instead
    of leaving the status unchanged. *)
Lemma resume_while_recording_pauses :
  let st := run mounted camera_session in
  status st ≠ Paused ∧
  (∃ st', pauseRecording st = Returned st' ∧ status st' ≠ status st).
Proof.
  split; [vm_compute; discriminate|].
  eexists. split; [vm_compute; reflexivity|]. vm_compute. discriminate.
Qed.

(** C2, as amended.  In every reachable state: a pause-or-resume request
    while the session is Idle or Stopped, and a stop request while it is
    Idle, return normally and leave the whole state unchanged.  While
    Recording the request pauses and while Paused it resumes, in both
    cases returning normally, as long as the session's recorder has not
    stopped; once the recorder has stopped on its own, the request throws
    [InvalidStateError] and the state is left as it was. *)
Theorem redundant_requests es :
  let st := run mounted es in
  (status st = Idle ∨ status st = Stopped →
     pauseRecording st = Returned st ∧ step st ClickPauseResume = st) ∧
  (status st = Idle →
     stopRecording st = Returned st ∧ step st ClickStop = st) ∧
  (∀ r, mediaRecorderRef st = Some r → recorders (browser st) !! r ≠ Some inactive →
     (status st = Recording →
        ∃ st', pauseRecording st = Returned st' ∧ status st' = Paused) ∧
     (status st = Paused →
        ∃ st', pauseRecording st = Returned st' ∧ status st' = Recording)) ∧
  (∀ r, mediaRecorderRef st = Some r → recorders (browser st) !! r = Some inactive →
     status st = Recording ∨ status st = Paused →
     pauseRecording st = Threw InvalidStateError st ∧ step st ClickPauseResume = st).
Proof.
  intros st. pose proof (Inv_reachable es) as HI. fold st in HI.
  split; [|split; [|split]].
  - intros Hs.
    assert (Hrec : isRecording (recordingState st) = false).
    { destruct (isRecording (recordingState st)) eqn:Hrec; [|done].
      apply status_active in Hrec. destruct Hs, Hrec; congruence. }
    assert (Heq : pauseRecording st = Returned st).
    { unfold pauseRecording. rewrite Hrec. by destruct (mediaRecorderRef st). }
    split; [done|]. simpl. by rewrite Heq.
  - intros Hs. apply status_idle in Hs as [_ Hr].
    assert (Heq : stopRecording st = Returned st).
    { unfold stopRecording. by rewrite Hr. }
    split; [done|]. simpl. by rewrite Heq.
  - intros r Hr Hact.
    assert (Htoggle : isRecording (recordingState st) = true →
              ∃ st', pauseRecording st = Returned st' ∧
                     status st' = if isPaused (recordingState st) then Recording else Paused).
    { intros Hrec.
      destruct (pauseRecording_toggles st r HI Hrec Hr Hact) as (st' & Heq & Hrec' & Hpau').
      exists st'. split; [done|].
      rewrite (status_recording _ Hrec'), Hpau'. by destruct (isPaused (recordingState st)). }
    split; intros Hs.
    + assert (Hrec : isRecording (recordingState st) = true) by (apply status_active; auto).
      destruct (Htoggle Hrec) as (st' & Heq & Hs'). exists st'. split; [done|].
      rewrite (status_recording _ Hrec) in Hs.
      by destruct (isPaused (recordingState st)).
    + assert (Hrec : isRecording (recordingState st) = true) by (apply status_active; auto).
      destruct (Htoggle Hrec) as (st' & Heq & Hs'). exists st'. split; [done|].
      rewrite (status_recording _ Hrec) in Hs.
      by destruct (isPaused (recordingState st)).
  - intros r Hr Hst Hs. apply status_active in Hs.
    pose proof (pauseRecording_throws st r Hs Hr Hst) as Heq.
    split; [done|]. simpl. by rewrite Heq.
Qed.

Lemma redundant_requests_witness :
  (pauseRecording (run mounted stopped_session) = Returned (run mounted stopped_session) ∧
   stopRecording mounted = Returned mounted) ∧
  (∃ st', pauseRecording (run mounted camera_session) = Returned st' ∧ status st' = Paused) ∧
  pauseRecording (run mounted sharing_ended) =
    Threw InvalidStateError (run mounted sharing_ended).
Proof.
  split; [split|split].
  - destruct (redundant_requests stopped_session) as (H & _).
    apply H. right. vm_compute. reflexivity.
  - destruct (redundant_requests []) as (_ & H & _).
    apply H. vm_compute. reflexivity.
  - destruct (redundant_requests camera_session) as (_ & _ & H & _).
    destruct (H 4) as [H' _]; [vm_compute; reflexivity | vm_compute; discriminate |].
    apply H'. vm_compute. reflexivity.
  - destruct (redundant_requests sharing_ended) as (_ & _ & _ & H).
    destruct (H 4) as [H' _]; [vm_compute; reflexivity.. | left; vm_compute; reflexivity |].
    exact H'.
Defined.

(** C3, refuted as stated.  [startTimer] overwrites [intervalRef] without
    looking at it.  When Start is clicked twice before the permission
    prompt is answered, both requests complete and two timers tick. *)
Lemma overlapping_starts_two_timers :
  let st := run mounted overlapping_starts in
  ¬ size (timers (browser st)) ≤ 1 ∧
  timers (browser st) = {[6; 10]} ∧ intervalRef st = Some 10.
Proof. vm_compute. split; [lia | split; reflexivity]. Qed.

(** C3, as amended.  When every start request is issued while nothing is
    being recorded and no acquisition is pending, at most one tick is live
    at every point, and it is the one whose handle [intervalRef] holds.
    [stopTimer] cancels the tracked tick; [startTimer] cancels nothing,
    every tick that was live before stays live. *)
Theorem one_tick_when_starts_are_sequential es :
  one_start_at_a_time mounted es = true →
  let st := run mounted es in
  timers (browser st) = tracked_timer st ∧
  size (timers (browser st)) ≤ 1 ∧
  timers (browser (stopTimer st)) = ∅ ∧
  (∀ t, t ∈ timers (browser st) → t ∈ timers (browser (startTimer st))).
Proof.
  intros Hseq st. pose proof (seq_timers _ (Seq_reachable es Hseq)) as Ht. fold st in Ht.
  split; [done|]. split; [|split].
  - rewrite Ht. unfold tracked_timer.
    destruct (intervalRef st); [rewrite size_singleton | rewrite size_empty]; lia.
  - unfold stopTimer, tracked_timer in *.
    destruct (intervalRef st); simpl; rewrite Ht; [apply difference_diag_L | reflexivity].
  - intros t Hin. simpl. apply elem_of_union. by right.
Qed.

Lemma one_tick_when_starts_are_sequential_witness :
  size (timers (browser (run mounted spec_scenario))) ≤ 1.
Proof.
  destruct (one_tick_when_starts_are_sequential spec_scenario) as (_ & H & _);
    [vm_compute; reflexivity | exact H].
Defined.

(** C4, the failing run.  Screen capture with the microphone enabled: the
    display stream is granted, then the microphone is refused.  The session
    stays Idle and the failure is reported, but the [catch] block stops no
    track: both tracks of the display stream are still live and nothing
    refers to the stream any more. *)
Theorem microphone_denied_leaves_display_open :
  let st := run mounted microphone_denied in
  status st = Idle ∧
  toasts (browser st) =
    [{| title := "Recording Failed";
        description := Some "Failed to start recording. Please check permissions.";
        destructive := true |}] ∧
  acquisitions (browser st) = ∅ ∧
  streamRef st = None ∧ mediaRecorderRef st = None ∧
  live_tracks (browser st) = {[2; 3]}.
Proof. vm_compute. repeat split; reflexivity. Qed.

(** The [catch] block in general: a rejected acquisition leaves the status
    and every live track as they were and raises the failure toast. *)
Lemma rejection_releases_nothing k st suspended :
  acquisitions (browser st) !! k = Some suspended →
  let st' := step st (AcquisitionSettles k Rejected) in
  status st' = status st ∧
  live_tracks (browser st') = live_tracks (browser st) ∧
  acquisitions (browser st') = delete k (acquisitions (browser st)) ∧
  toasts (browser st') = toasts (browser st) ++
    [{| title := "Recording Failed";
        description := Some "Failed to start recording. Please check permissions.";
        destructive := true |}].
Proof.
  intros Hk. simpl. unfold startRecording_settled. rewrite Hk.
  by destruct suspended.
Qed.

Lemma rejection_releases_nothing_witness :
  status (step (run mounted [ClickStart]) (AcquisitionSettles 1 Rejected)) = Idle.
Proof.
  destruct (rejection_releases_nothing 1 (run mounted [ClickStart]) (AwaitDisplay screen true))
    as (H & _); [vm_compute; reflexivity|].
  rewrite H. vm_compute. reflexivity.
Defined.

(** C5, refuted as stated.  After two overlapping starts a pause request
    cancels the tracked tick only.  The session is Paused, and the tick of
    the first start still fires and advances [elapsedSeconds]. *)
Lemma tick_advances_while_paused :
  let st := run mounted (overlapping_starts ++ [ClickPauseResume]) in
  status st = Paused ∧
  elapsedSeconds st = 0 ∧
  elapsedSeconds (step st (TimerFires 6)) = 1.
Proof. vm_compute. repeat split; reflexivity. Qed.

(** C5, as amended.  In a session whose starts came one at a time,
    whatever the sequence of pause and resume requests: an event can
    advance [elapsedSeconds] only when the session is Recording, and while
    it is Paused a firing of any timer changes nothing at all (its tick was
    cancelled by the pause request). *)
Theorem elapsed_advances_only_while_recording es :
  one_start_at_a_time mounted es = true →
  let st := run mounted es in
  (∀ e, elapsedSeconds st < elapsedSeconds (step st e) → status st = Recording) ∧
  (status st = Paused → ∀ id, step st (TimerFires id) = st).
Proof.
  intros Hseq st.
  pose proof (Inv_reachable es) as HI. fold st in HI.
  pose proof (seq_timers _ (Seq_reachable es Hseq)) as Ht. fold st in Ht.
  unfold tracked_timer in Ht. split.
  - intros e Hlt. destruct (step_duration st e Hlt) as (id & -> & Hin).
    rewrite Ht in Hin. destruct (intervalRef st) as [t|] eqn:Hi.
    + destruct (inv_interval _ HI) as [Hrec Hpau]; [rewrite Hi; by eexists|].
      by rewrite (status_recording _ Hrec), Hpau.
    + by apply not_elem_of_empty in Hin.
  - intros Hs id. simpl.
    assert (Hpau : isPaused (recordingState st) = true).
    { unfold status in Hs.
      destruct (isRecording (recordingState st));
        [by destruct (isPaused (recordingState st)) | by destruct (mediaRecorderRef st)]. }
    rewrite (interval_paused _ HI Hpau) in Ht. rewrite Ht.
    case_decide as Hin; [by apply not_elem_of_empty in Hin | done].
Qed.

Lemma elapsed_advances_only_while_recording_witness :
  step (run mounted paused_session) (TimerFires 5) = run mounted paused_session.
Proof.
  destruct (elapsed_advances_only_while_recording paused_session) as (_ & H);
    [vm_compute; reflexivity|].
  apply H. vm_compute. reflexivity.
Defined.




(** C7, refuted as stated.  [startRecording] has no guard for a pending
    acquisition: a second start request while the first is still waiting
    for the permission prompt begins a second acquisition. *)
Lemma second_start_is_not_rejected :
  let st := run mounted [ClickStart; ClickStart] in
  ¬ size (acquisitions (browser st)) ≤ 1 ∧
  acquisitions (browser st) =
    {[1 := AwaitDisplay screen true; 2 := AwaitDisplay screen true]}.
Proof. vm_compute. split; [lia | reflexivity]. Qed.

(** C7, as amended.  At most one acquisition is outstanding as long as
    start requests are issued only while nothing is being recorded and
    none is pending.  The controller itself never rejects or ignores a
    start request: each one adds an outstanding acquisition. *)
Theorem one_acquisition_when_starts_are_sequential es :
  one_start_at_a_time mounted es = true →
  let st := run mounted es in
  size (acquisitions (browser st)) ≤ 1 ∧
  size (acquisitions (browser (step st ClickStart))) = S (size (acquisitions (browser st))).
Proof.
  intros Hseq st. split.
  - destruct (seq_pending _ (Seq_reachable es Hseq)) as [H|(_ & k & a & H)];
      fold st in H; rewrite H.
    + rewrite map_size_empty. lia.
    + rewrite map_size_singleton. lia.
  - apply startRecording_size, Inv_reachable.
Qed.

Lemma one_acquisition_when_starts_are_sequential_witness :
  size (acquisitions (browser (run mounted [ClickStart]))) ≤ 1.
Proof.
  destruct (one_acquisition_when_starts_are_sequential [ClickStart]) as (H & _);
    [vm_compute; reflexivity | exact H].
Defined.

(** C8.  With an artifact present, [downloadRecording] saves the artifact
    itself, bytes and type, under a name made from the clock, and leaves
    the artifact and the rest of the component state as they were; a
    second export saves the same bytes again. *)
Theorem download_is_repeatable st blob iso1 iso2 :
  finalArtifact st = Some blob →
  let st1 := downloadRecording iso1 st in
  let st2 := downloadRecording iso2 st1 in
  downloads (browser st1) =
    downloads (browser st) ++ [("recording-" +:+ String.substring 0 19 iso1 +:+ ".webm", blob)] ∧
  downloads (browser st2) =
    downloads (browser st) ++ [("recording-" +:+ String.substring 0 19 iso1 +:+ ".webm", blob);
                               ("recording-" +:+ String.substring 0 19 iso2 +:+ ".webm", blob)] ∧
  finalArtifact st1 = Some blob ∧
  finalArtifact st2 = Some blob ∧
  recordingState st2 = recordingState st ∧
  chunksRef st2 = chunksRef st ∧
  streamRef st2 = streamRef st ∧
  mediaRecorderRef st2 = mediaRecorderRef st ∧
  intervalRef st2 = intervalRef st.
Proof.
  intros Hb st1 st2. unfold finalArtifact in *.
  assert (H1 : st1 = toast {| title := "Download Started";
                             description := Some "Your recording is being downloaded";
                             destructive := false |}
                       (save_as blob ("recording-" +:+ String.substring 0 19 iso1 +:+ ".webm") st)).
  { unfold st1, downloadRecording. by rewrite Hb. }
  assert (Hb1 : recordedBlob (recordingState st1) = Some blob).
  { rewrite H1, save_as_eq. done. }
  assert (H2 : st2 = toast {| title := "Download Started";
                             description := Some "Your recording is being downloaded";
                             destructive := false |}
                       (save_as blob ("recording-" +:+ String.substring 0 19 iso2 +:+ ".webm") st1)).
  { unfold st2, downloadRecording. by rewrite Hb1. }
  rewrite H2, save_as_eq, H1, save_as_eq. simpl.
  rewrite <- app_assoc. simpl. by rewrite Hb.
Qed.

Lemma download_is_repeatable_witness :
  finalArtifact
    (downloadRecording "2026-01-02T03:04:06.000Z"
       (downloadRecording "2026-01-02T03:04:05.000Z" (run mounted stopped_session))) =
  Some (new_Blob (map PartBlob [chunk; chunk]) "video/webm").
Proof.
  destruct (download_is_repeatable (run mounted stopped_session)
              (new_Blob (map PartBlob [chunk; chunk]) "video/webm")
              "2026-01-02T03:04:05.000Z" "2026-01-02T03:04:06.000Z")
    as (_ & _ & _ & H & _); [vm_compute; reflexivity | exact H].
Defined.

(** C9.  In every reachable state every chunk of [chunksRef] is
    non-empty; a data-available notification with a zero-size blob changes
    nothing; and whenever an event materializes the artifact, the artifact
    is the blob of the chunks then held, all of them non-empty. *)
Theorem chunks_are_nonempty es :
  let st := run mounted es in
  Forall nonempty (chunksRef st) ∧
  (∀ r data, Blob_size data = 0 → step st (DataAvailable r data) = st) ∧
  (∀ e b, finalArtifact (step st e) ≠ finalArtifact st →
          finalArtifact (step st e) = Some b →
          b = new_Blob (map PartBlob (chunksRef (step st e))) "video/webm" ∧
          Forall nonempty (chunksRef (step st e))).
Proof.
  intros st. pose proof (Inv_reachable es) as HI. fold st in HI.
  split; [apply (inv_chunks _ HI)|]. split.
  - intros r data Hsize. simpl.
    unfold ondataavailable.
    destruct (recorders (browser st) !! r) as [[]|]; repeat case_decide; done || lia.
  - intros e b Hne Hb.
    destruct (artifact_changes st e Hne) as [(_ & Heq)|(k & o & _ & _ & Heq)];
      rewrite Heq in Hb; [|done].
    injection Hb as <-. split; [done|].
    apply (inv_chunks _ (Inv_step st e HI)).
Qed.

Lemma chunks_are_nonempty_witness :
  step (run mounted camera_session) (DataAvailable 4 (mkBlob [] "video/webm")) =
  run mounted camera_session.
Proof.
  destruct (chunks_are_nonempty camera_session) as (_ & H & _).
  apply H. reflexivity.
Defined.

(** C10.  With an empty transcript, [downloadTranscript] saves a text file
    whose body is the built-in sample, the very text [transcribeAudio]
    resolves to, after the header and the date; it reports the download
    and leaves [recordingState], and so the transcript, as it was. *)
Theorem empty_transcript_downloads_sample st iso localeDate :
  transcript (recordingState st) = EmptyString →
  let st' := downloadTranscript iso localeDate st in
  downloads (browser st') =
    downloads (browser st) ++
      [("transcript-" +:+ String.substring 0 19 iso +:+ ".txt",
        new_Blob [PartText ("Meeting Transcript
Generated on: " +:+ localeDate +:+ "

" +:+ sampleTranscript)] "text/plain")] ∧
  sampleTranscript = transcribeAudio ∧
  toasts (browser st') =
    toasts (browser st) ++
      [{| title := "Download Started";
          description := Some "Sample transcript file is being downloaded";
          destructive := false |}] ∧
  recordingState st' = recordingState st ∧
  transcript (recordingState st') = EmptyString.
Proof.
  intros Ht st'. unfold st', downloadTranscript.
  case_decide; [|done]. rewrite save_as_eq. simpl. by rewrite Ht.
Qed.

Lemma empty_transcript_downloads_sample_witness :
  recordingState (downloadTranscript "2026-01-02T03:04:05.000Z" "1/2/2026, 3:04:05 AM"
                    (run mounted stopped_session)) =
  recordingState (run mounted stopped_session).
Proof.
  destruct (empty_transcript_downloads_sample (run mounted stopped_session)
              "2026-01-02T03:04:05.000Z" "1/2/2026, 3:04:05 AM")
    as (_ & _ & _ & H & _); [vm_compute; reflexivity | exact H].
Defined.

(** ** Further properties *)

Example formatDuration_examples :
  formatDuration 0 = "00:00" ∧ formatDuration 75 = "01:15" ∧
  formatDuration (59 * 60 + 59) = "59:59" ∧ formatDuration (100 * 60) = "100:00".
Proof. vm_compute. repeat split; reflexivity. Qed.

Lemma String_app_nil s : EmptyString +:+ s = s.
Proof. reflexivity. Qed.

Lemma String_app_cons c s t : String c s +:+ t = String c (s +:+ t).
Proof. reflexivity. Qed.

Lemma String_length_app s t : String.length (s +:+ t) = String.length s + String.length t.
Proof.
  induction s as [|c s IH]; [done|].
  rewrite String_app_cons. simpl. by rewrite IH.
Qed.

Lemma String_app_inv_suffix s1 : ∀ s2 t1 t2,
  s1 +:+ t1 = s2 +:+ t2 → String.length t1 = String.length t2 → s1 = s2 ∧ t1 = t2.
Proof.
  induction s1 as [|c s1 IH]; intros [|d s2] t1 t2 Heq Hlen;
    rewrite ?String_app_nil, ?String_app_cons in Heq.
  - done.
  - rewrite Heq in Hlen. simpl in Hlen. rewrite String_length_app in Hlen. lia.
  - rewrite <- Heq in Hlen. simpl in Hlen. rewrite String_length_app in Hlen. lia.
  - injection Heq as -> Heq. destruct (IH _ _ _ Heq Hlen) as [-> ->]. done.
Qed.

(** The number a field of digits stands for, leading zeros allowed. *)
Definition field_value (s : string) : option nat :=
  Nat.of_uint <$> NilEmpty.uint_of_string s.

Lemma field_value_toString n : field_value (Number_toString n) = Some n.
Proof.
  unfold field_value, Number_toString. rewrite NilEmpty.usu. simpl.
  by rewrite Unsigned.of_to.
Qed.

Lemma toString_nonempty n : 0 < String.length (Number_toString n).
Proof.
  unfold Number_toString.
  pose proof (Unsigned.to_of (Nat.to_uint n)) as Hn.
  rewrite Unsigned.of_to in Hn. rewrite Hn. unfold Decimal.unorm.
  destruct (Decimal.nzhead (Nat.to_uint n)); simpl; lia.
Qed.

Lemma field_value_padStart n : field_value (padStart 2 "0" (Number_toString n)) = Some n.
Proof.
  unfold padStart. case_decide as Hlen; [apply field_value_toString|].
  case_decide; [done|].
  pose proof (toString_nonempty n) as Hpos.
  assert (Hone : String.length (Number_toString n) = 1) by lia.
  rewrite Hone.
  change (String.substring 0 (2 - 1) (String_repeat "0" (2 - 1))) with "0".
  rewrite String_app_cons, String_app_nil.
  unfold field_value, Number_toString. simpl. rewrite NilEmpty.usu. simpl.
  change (Nat.of_uint (Decimal.D0 (Nat.to_uint n))) with (Nat.of_uint (Nat.to_uint n)).
  by rewrite Unsigned.of_to.
Qed.

Lemma padStart_short n :
  n < 100 → String.length (padStart 2 "0" (Number_toString n)) = 2.
Proof.
  intros Hn.
  assert (H : forallb (λ k, String.length (padStart 2 "0" (Number_toString k)) =? 2)
                (seq 0 100) = true) by (vm_compute; reflexivity).
  rewrite forallb_forall in H. apply Nat.eqb_eq, H, in_seq. lia.
Qed.

Lemma fields_injective m1 s1 m2 s2 :
  s1 < 100 → s2 < 100 →
  padStart 2 "0" (Number_toString m1) +:+ ":" +:+ padStart 2 "0" (Number_toString s1) =
  padStart 2 "0" (Number_toString m2) +:+ ":" +:+ padStart 2 "0" (Number_toString s2) →
  m1 = m2 ∧ s1 = s2.
Proof.
  intros H1 H2 Heq.
  apply String_app_inv_suffix in Heq as [Hm Hs];
    [|by rewrite !String_length_app, !padStart_short].
  rewrite !String_app_cons, !String_app_nil in Hs. injection Hs as Hs.
  apply (f_equal field_value) in Hm, Hs. rewrite !field_value_padStart in Hm, Hs.
  by split; apply (inj Some).
Qed.

(** X1.  [formatDuration] never shows two different durations the same
    way. *)
Theorem formatDuration_injective a b : formatDuration a = formatDuration b → a = b.
Proof.
  unfold formatDuration. intros Heq.
  pose proof (Nat.mod_upper_bound a 60). pose proof (Nat.mod_upper_bound b 60).
  apply fields_injective in Heq as [Hm Hs]; [|lia..].
  rewrite (Nat.div_mod_eq a 60), (Nat.div_mod_eq b 60). by rewrite Hm, Hs.
Qed.

Lemma formatDuration_injective_witness : 75 = 60 + 15.
Proof. apply formatDuration_injective. vm_compute. reflexivity. Defined.

(** X2.  Below one hundred minutes the display is exactly five
    characters, [MM:SS]; it is never shorter, the minutes are not cut. *)
Theorem formatDuration_length seconds :
  (seconds < 100 * 60 → String.length (formatDuration seconds) = 5) ∧
  5 ≤ String.length (formatDuration seconds).
Proof.
  pose proof (Nat.mod_upper_bound seconds 60).
  unfold formatDuration. rewrite !String_length_app, (padStart_short (seconds mod 60)) by lia.
  change (String.length ":") with 1. split.
  - intros Hlt. rewrite padStart_short; [done|]. apply Nat.Div0.div_lt_upper_bound. lia.
  - pose proof (toString_nonempty (seconds / 60)) as Hpos.
    unfold padStart. case_decide; [lia|]. case_decide; [done|].
    rewrite String_length_app.
    assert (String.length (Number_toString (seconds / 60)) = 1) as -> by lia.
    simpl. lia.
Qed.

Lemma formatDuration_length_witness : String.length (formatDuration 75) = 5.
Proof. apply (formatDuration_length 75). lia. Defined.

Lemma step_object_urls st e :
  object_urls (browser st) = ∅ → object_urls (browser (step st e)) = ∅.
Proof.
  intros H. step_cases st e; subst; try done.
  all: by rewrite insert_empty, delete_singleton_eq.
Qed.

Lemma step_canned st e :
  canned (recordingState st) → canned (recordingState (step st e)).
Proof.
  intros H. step_cases st e; try done.
  all: right; done.
Qed.

Lemma canned_reachable es : canned (recordingState (run mounted es)).
Proof.
  assert (H : ∀ st, canned (recordingState st) → canned (recordingState (run st es))).
  { induction es as [|e es IH]; intros st Hc; [done|]. apply IH, step_canned, Hc. }
  apply H. by left.
Qed.

Lemma object_urls_reachable es : object_urls (browser (run mounted es)) = ∅.
Proof.
  assert (H : ∀ st, object_urls (browser st) = ∅ → object_urls (browser (run st es)) = ∅).
  { induction es as [|e es IH]; intros st Hc; [done|]. apply IH, step_object_urls, Hc. }
  by apply H.
Qed.

(** X3.  No object URL outlives the handler that created it: none is
    registered in any reachable state, nor after a minutes export. *)
Theorem object_urls_are_revoked es iso localeDate :
  let st := run mounted es in
  object_urls (browser st) = ∅ ∧
  object_urls (browser (downloadMeetingMinutes iso localeDate st)) = ∅.
Proof.
  intros st. pose proof (object_urls_reachable es) as H. fold st in H.
  split; [done|]. unfold downloadMeetingMinutes.
  case_decide; rewrite save_as_eq; simpl; by rewrite H, insert_empty, delete_singleton_eq.
Qed.

(** X4.  In every reachable state the transcript export and the minutes
    export save the built-in texts, whatever was recorded, and leave
    [recordingState] as it was. *)
Theorem exports_are_canned es iso localeDate :
  let st := run mounted es in
  downloads (browser (downloadTranscript iso localeDate st)) =
    downloads (browser st) ++
      [("transcript-" +:+ String.substring 0 19 iso +:+ ".txt",
        new_Blob [PartText (transcript_content localeDate sampleTranscript)] "text/plain")] ∧
  downloads (browser (downloadMeetingMinutes iso localeDate st)) =
    downloads (browser st) ++
      [("meeting-minutes-" +:+ String.substring 0 19 iso +:+ ".txt",
        new_Blob [PartText (minutes_content localeDate samplePoints)] "text/plain")] ∧
  recordingState (downloadTranscript iso localeDate st) = recordingState st ∧
  recordingState (downloadMeetingMinutes iso localeDate st) = recordingState st.
Proof.
  intros st. pose proof (canned_reachable es) as Hc. fold st in Hc.
  unfold downloadTranscript, downloadMeetingMinutes.
  destruct Hc as [[Ht Hp]|[Ht Hp]]; rewrite Ht, Hp;
    repeat case_decide; try done; rewrite !save_as_eq; done.
Qed.

Lemma Quiet_mounted : Quiet mounted.
Proof. by split. Qed.

Lemma Quiet_step st e :
  (isRecording (recordingState st) = true → recordedBlob (recordingState st) = None) →
  Quiet st →
  match e with ClickStop => isRecording (recordingState st) = true | _ => True end →
  Quiet (step st e).
Proof.
  intros Hb [Hq Ht Hp Htr Hmp] Hadm.
  step_cases st e; subst; split; simpl in *; repeat step_case; try done.
  all: try (apply Forall_app; split; [done|]; apply Forall_singleton; simpl; auto).
  all: try (by inversion Hq).
  all: try (inversion Hq; congruence).
Qed.

Lemma Quiet_run es : ∀ st,
  Inv st → SeqInv st → Orderly st → Quiet st →
  orderly st es = true → stop_only_while_recording st es = true → Quiet (run st es).
Proof.
  induction es as [|e es IH]; intros st HI HS HO HQ Hord Hes; [done|].
  simpl in Hes. apply andb_prop in Hes as [He Hes].
  destruct (Orderly_run [e] st HI HS HO) as (HI' & HS' & HO').
  { simpl in *. apply andb_prop in Hord as [-> _]. done. }
  simpl in Hord. apply andb_prop in Hord as [_ Hord].
  apply IH; try done.
  apply Quiet_step; [|done|by destruct e].
  intros Hrec. by destruct (ord_recording _ HO Hrec) as (_ & ? & _).
Qed.

(** X5.  In an orderly session in which every stop request comes through
    the Stop button, so while [isRecording], the callback [stopRecording]
    schedules sees the render of the click, in which [recordedBlob] is
    still null: the transcription never starts, [isProcessing] stays false
    and the transcript and the meeting points stay empty. *)
Theorem transcription_never_starts es :
  orderly mounted es = true →
  stop_only_while_recording mounted es = true →
  let st := run mounted es in
  isProcessing (recordingState st) = false ∧
  transcript (recordingState st) = EmptyString ∧
  meetingPoints (recordingState st) = [] ∧
  recordingState (step st TimeoutFires) = recordingState st ∧
  step st TranscriptionResolves = st.
Proof.
  intros Hord Hes st.
  pose proof (Quiet_run es mounted Inv_mounted SeqInv_mounted Orderly_mounted Quiet_mounted
                Hord Hes) as HQ.
  fold st in HQ.
  destruct HQ as [Hq Ht Hp Htr Hmp]. repeat split; try done.
  - simpl. unfold timeout_callback, processRecordingForTranscript.
    destruct (timeouts (browser st)) as [|render q]; [done|].
    inversion Hq as [|? ? Hr _]. by rewrite Hr.
  - simpl. unfold processRecordingForTranscript_resumed. by rewrite Ht.
Qed.

Lemma transcription_never_starts_witness :
  transcript (recordingState (run mounted spec_scenario)) = EmptyString.
Proof.
  destruct (transcription_never_starts spec_scenario) as (_ & H & _);
    [vm_compute; reflexivity.. | exact H].
Defined.

(** Outside the orderly sessions the transcription can start: when the
    recorder has stopped on its own, the render of the Stop click already
    holds an artifact. *)
Example transcription_after_the_recorder_ended :
  transcript (recordingState
    (run mounted (sharing_ended ++ [ClickStop; TimeoutFires; TranscriptionResolves]))) =
  transcribeAudio.
Proof. vm_compute. reflexivity. Qed.

(** X6.  While [isRecording] no event changes the capture source or the
    microphone setting. *)
Theorem settings_locked_while_recording st e :
  isRecording (recordingState st) = true →
  captureMode (step st e) = captureMode st ∧ micEnabled (step st e) = micEnabled st.
Proof. intros Hrec. step_cases st e; subst; done. Qed.

Lemma settings_locked_while_recording_witness :
  captureMode (step (run mounted camera_session) (ClickCaptureMode screen)) = camera.
Proof.
  destruct (settings_locked_while_recording (run mounted camera_session)
              (ClickCaptureMode screen)) as [H _]; [vm_compute; reflexivity|].
  rewrite H. vm_compute. reflexivity.
Defined.

Lemma data_keeps_recorders st r data :
  recorders (browser (step st (DataAvailable r data))) = recorders (browser st).
Proof.
  simpl. unfold ondataavailable.
  destruct (recorders (browser st) !! r) as [[]|]; repeat case_decide; done.
Qed.

(** X8.  Data notifications of a recording recorder are appended in
    arrival order: after any run of them [chunksRef] is what it was,
    followed by the non-empty blobs in order, duplicates included. *)
Theorem data_appends_in_order r datas : ∀ st,
  recorders (browser st) !! r = Some recording →
  chunksRef (run st (DataAvailable r <$> datas)) =
  chunksRef st ++ filter (λ data, 0 < Blob_size data) datas.
Proof.
  induction datas as [|data datas IH]; intros st Hr.
  - by rewrite app_nil_r.
  - rewrite fmap_cons.
    change (run st (DataAvailable r data :: (DataAvailable r <$> datas)))
      with (run (step st (DataAvailable r data)) (DataAvailable r <$> datas)).
    rewrite IH by (by rewrite data_keeps_recorders).
    simpl. rewrite Hr. unfold ondataavailable. rewrite filter_cons.
    case_decide; simpl; [by rewrite <- app_assoc | done].
Qed.

Lemma data_appends_in_order_witness :
  chunksRef (run (run mounted camera_session)
               (DataAvailable 4 <$> [chunk; mkBlob [] "video/webm"; chunk])) =
  [chunk; chunk].
Proof.
  rewrite (data_appends_in_order 4 [chunk; mkBlob [] "video/webm"; chunk]
             (run mounted camera_session)); vm_compute; reflexivity.
Defined.

(** X9.  A stop request in the Stopped state releases nothing further,
    queues no stop notification and leaves the artifact, the chunks and
    every ref as they are; it raises the toast again and schedules the
    transcript processing once more. *)
Theorem stop_when_stopped es :
  let st := run mounted es in
  status st = Stopped →
  let st' := step st ClickStop in
  recordingState st' = recordingState st ∧
  chunksRef st' = chunksRef st ∧
  streamRef st' = streamRef st ∧
  mediaRecorderRef st' = mediaRecorderRef st ∧
  intervalRef st' = intervalRef st ∧
  recorders (browser st') = recorders (browser st) ∧
  stop_tasks (browser st') = stop_tasks (browser st) ∧
  live_tracks (browser st') = live_tracks (browser st) ∧
  timers (browser st') = timers (browser st) ∧
  timeouts (browser st') = timeouts (browser st) ++ [recordingState st] ∧
  toasts (browser st') = toasts (browser st) ++
    [{| title := "Recording Stopped";
        description := Some "Your recording is ready for download";
        destructive := false |}].
Proof.
  intros st Hs st'. pose proof (Inv_reachable es) as HI. fold st in HI.
  apply status_stopped in Hs as [Hrec [r Hr]].
  pose proof (inv_stopped _ HI Hrec r Hr) as Hst.
  pose proof (interval_idle _ HI Hrec) as Hi.
  assert (Hpau : isPaused (recordingState st) = false).
  { destruct (isPaused (recordingState st)) eqn:Hp; [|done].
    pose proof (inv_paused _ HI Hp). congruence. }
  clear HI. subst st'. simpl.
  unfold stopRecording, stopTimer, MediaRecorder_stop.
  rewrite Hr. simpl. rewrite Hi. simpl. rewrite Hst. simpl.
  destruct st as [[] ? ? ? ? ? ? []]. simpl in *. subst. rewrite ?Hst. done.
Qed.

Lemma stop_when_stopped_witness :
  recordingState (step (run mounted stopped_session) ClickStop) =
  recordingState (run mounted stopped_session).
Proof.
  destruct (stop_when_stopped stopped_session) as (H & _);
    [vm_compute; reflexivity | exact H].
Defined.

Lemma pause_then_resume_frame st r :
  mediaRecorderRef st = Some r →
  isRecording (recordingState st) = true →
  isPaused (recordingState st) = false →
  recorders (browser st) !! r = Some recording →
  let st' := step (step st ClickPauseResume) ClickPauseResume in
  recordingState st' = recordingState st ∧
  chunksRef st' = chunksRef st ∧
  streamRef st' = streamRef st ∧
  mediaRecorderRef st' = mediaRecorderRef st ∧
  recorders (browser st') = recorders (browser st) ∧
  live_tracks (browser st') = live_tracks (browser st) ∧
  intervalRef st' = Some (next_id (browser st)) ∧
  timers (browser st') = {[next_id (browser st)]} ∪ (timers (browser st) ∖ tracked_timer st).
Proof.
  intros Hr Hrec Hpau Hst. simpl.
  unfold pauseRecording, MediaRecorder_pause, MediaRecorder_resume, stopTimer, startTimer,
    setInterval, clearInterval, toast, tracked_timer.
  open_studio st. subst. simpl. rewrite Hst. simpl.
  destruct iref; simpl; rewrite lookup_insert_eq; simpl;
    rewrite insert_insert_eq, (insert_id _ _ _ Hst), ?difference_empty_L; done.
Qed.

(** X10.  Pausing a Recording session whose recorder has not stopped and
    resuming it brings back the same [recordingState], chunks, stream,
    recorder states and live tracks; the old tick is replaced by a fresh
    one, the only tick when starts came one at a time. *)
Theorem pause_then_resume es :
  let st := run mounted es in
  status st = Recording →
  (∀ r, mediaRecorderRef st = Some r → recorders (browser st) !! r ≠ Some inactive) →
  let st' := step (step st ClickPauseResume) ClickPauseResume in
  recordingState st' = recordingState st ∧
  chunksRef st' = chunksRef st ∧
  streamRef st' = streamRef st ∧
  mediaRecorderRef st' = mediaRecorderRef st ∧
  recorders (browser st') = recorders (browser st) ∧
  live_tracks (browser st') = live_tracks (browser st) ∧
  intervalRef st' = Some (next_id (browser st)) ∧
  timers (browser st') = {[next_id (browser st)]} ∪ (timers (browser st) ∖ tracked_timer st) ∧
  (one_start_at_a_time mounted es = true → timers (browser st') = {[next_id (browser st)]}).
Proof.
  intros st Hs Hact st'. pose proof (Inv_reachable es) as HI. fold st in HI.
  assert (Hrec : isRecording (recordingState st) = true) by (apply status_active; auto).
  destruct (inv_recording _ HI Hrec) as (r & Hr & Hst).
  destruct Hst as [Hst|Hst]; [by destruct (Hact r Hr)|].
  rewrite (status_recording _ Hrec) in Hs.
  destruct (isPaused (recordingState st)) eqn:Hpau; [done|].
  destruct (pause_then_resume_frame st r Hr Hrec Hpau Hst)
    as (H1 & H2 & H3 & H4 & H5 & H6 & H7 & H8).
  fold st' in H1, H2, H3, H4, H5, H6, H7, H8.
  repeat split; try done.
  intros Hseq. pose proof (seq_timers _ (Seq_reachable es Hseq)) as Ht. fold st in Ht.
  rewrite H8, Ht, difference_diag_L. apply union_empty_r_L.
Qed.

Lemma pause_then_resume_witness :
  recordingState (step (step (run mounted camera_session) ClickPauseResume) ClickPauseResume) =
  recordingState (run mounted camera_session).
Proof.
  destruct (pause_then_resume camera_session) as (H & _);
    [vm_compute; reflexivity | | exact H].
  intros r Hr. vm_compute in Hr. injection Hr as <-. vm_compute. discriminate.
Defined.

Lemma step_live_fresh st e t :
  t ∈ live_tracks (browser (step st e)) →
  t ∈ live_tracks (browser st) ∨
  (next_id (browser st) ≤ t ∧ t < next_id (browser (step st e))).
Proof.
  step_cases st e; intros Hin; auto.
  all: set_unfold; intuition lia.
Qed.

Lemma live_tracks_allocated es t :
  t ∈ live_tracks (browser (run mounted es)) → t < next_id (browser (run mounted es)).
Proof.
  assert (H : ∀ st, (∀ t, t ∈ live_tracks (browser st) → t < next_id (browser st)) →
                    ∀ t, t ∈ live_tracks (browser (run st es)) → t < next_id (browser (run st es))).
  { induction es as [|e es IH]; intros st Hst; [done|].
    apply IH. intros t' Hin. pose proof (step_next_id st e).
    destruct (step_live_fresh st e t' Hin) as [Hold|[_ Hnew]]; [|done].
    specialize (Hst t' Hold). lia. }
  apply H. intros t'. simpl. by rewrite elem_of_empty.
Qed.

Lemma step_resources_other st e :
  match e with
  | ClickStart | AcquisitionSettles _ _ | RecorderStops _ | RecorderEnds _ _ => True
  | _ =>
      streamRef (step st e) = streamRef st ∧
      acquisitions (browser (step st e)) = acquisitions (browser st) ∧
      live_tracks (browser (step st e)) = live_tracks (browser st)
  end.
Proof. step_cases st e; done. Qed.

Lemma notification_resources st e :
  match e with
  | RecorderStops _ | RecorderEnds _ _ =>
      acquisitions (browser (step st e)) = acquisitions (browser st) ∧
      ((streamRef (step st e) = streamRef st ∧
        live_tracks (browser (step st e)) = live_tracks (browser st)) ∨
       (∃ stream, streamRef st = Some stream ∧ streamRef (step st e) = None ∧
          live_tracks (browser (step st e)) = live_tracks (browser st) ∖ list_to_set stream))
  | _ => True
  end.
Proof.
  step_cases st e; try done.
  all: split; simpl; repeat step_case; try done.
  all: try (by left).
  all: right; by eexists.
Qed.

Lemma settled_leaked k o st t :
  t < next_id (browser st) → leaked st t → leaked (startRecording_settled k o st) t.
Proof.
  intros Hlt [Hlive Hnot]. unfold startRecording_settled.
  destruct (acquisitions (browser st) !! k) as [suspended|] eqn:Hk; [|done].
  assert (Hpending : ∀ k' mode stream,
            delete k (acquisitions (browser st)) !! k' = Some (AwaitMicrophone mode stream) →
            t ∉ stream).
  { intros k' mode stream Hk' Hin. apply lookup_delete_Some in Hk' as [_ Hk'].
    apply Hnot. right. by exists k', mode, stream. }
  assert (Hstream : ∀ stream, streamRef st = Some stream → t ∉ stream).
  { intros stream Hs Hin. apply Hnot. left. by exists stream. }
  assert (Hfresh : ∀ n, t ∉ seq (next_id (browser st)) n).
  { intros n Hin. apply elem_of_seq in Hin. lia. }
  destruct suspended as [mode mic|mode stream|mode c], o as [n|]; simpl.
  - destruct mic.
    + split; simpl; [apply elem_of_union; by right|].
      intros [(s & Hs & Hin)|(k' & m & s & Hk' & Hin)]; simpl in *.
      * by apply (Hstream s).
      * destruct (decide (k = k')) as [<-|Hne].
        -- rewrite lookup_insert_eq in Hk'. injection Hk' as <- <-. by apply (Hfresh n).
        -- rewrite lookup_insert_ne in Hk' by done. by apply (Hpending k' m s).
    + split; simpl; [apply elem_of_union; by right|].
      intros [(s & Hs & Hin)|(k' & m & s & Hk' & Hin)]; simpl in *.
      * injection Hs as <-. by apply (Hfresh n).
      * by apply (Hpending k' m s).
  - split; simpl; [done|].
    intros [(s & Hs & Hin)|(k' & m & s & Hk' & Hin)]; simpl in *.
    + by apply (Hstream s).
    + by apply (Hpending k' m s).
  - assert (Hmine : t ∉ stream).
    { intros Hin. apply Hnot. right. by exists k, mode, stream. }
    destruct n as [|n]; simpl.
    + split; simpl; [apply elem_of_union; by right|].
      intros [(s & Hs & Hin)|(k' & m & s & Hk' & Hin)]; simpl in *.
      * by apply (Hstream s).
      * by apply (Hpending k' m s).
    + split; simpl; [apply elem_of_union; by right|].
      intros [(s & Hs & Hin)|(k' & m & s & Hk' & Hin)]; simpl in *.
      * injection Hs as <-. apply elem_of_app in Hin as [Hin|Hin]; [done|].
        apply list_elem_of_singleton in Hin. lia.
      * by apply (Hpending k' m s).
  - split; simpl; [done|].
    intros [(s & Hs & Hin)|(k' & m & s & Hk' & Hin)]; simpl in *.
    + by apply (Hstream s).
    + by apply (Hpending k' m s).
  - split; simpl; [apply elem_of_union; by right|].
    intros [(s & Hs & Hin)|(k' & m & s & Hk' & Hin)]; simpl in *.
    + injection Hs as <-. by apply (Hfresh n).
    + by apply (Hpending k' m s).
  - split; simpl; [done|].
    intros [(s & Hs & Hin)|(k' & m & s & Hk' & Hin)]; simpl in *.
    + by apply (Hstream s).
    + by apply (Hpending k' m s).
Qed.

Lemma notification_leaked st e t :
  match e with RecorderStops _ | RecorderEnds _ _ => True | _ => False end →
  leaked st t → leaked (step st e) t.
Proof.
  intros He [Hlive Hnot].
  pose proof (notification_resources st e) as Hres.
  destruct e; try done.
  all: destruct Hres as [Ha [[Hs Hl]|(stream & Hs & Hs' & Hl)]].
  all: try (split; [by rewrite Hl | unfold referenced; by rewrite Hs, Ha]).
  all: split;
    [ rewrite Hl; apply elem_of_difference; split; [done|];
      rewrite elem_of_list_to_set; intros Hin; apply Hnot; left; by exists stream
    | unfold referenced; rewrite Hs', Ha;
      intros [(s & [=] & _)|Hpend]; apply Hnot; by right ].
Qed.

Lemma step_leaked st e t :
  t < next_id (browser st) → leaked st t → leaked (step st e) t.
Proof.
  intros Hlt Hleak.
  pose proof (step_resources_other st e) as Hother.
  destruct e;
    try (destruct Hother as (Hs & Ha & Hl); destruct Hleak as [Hlive Hnot];
         split; [by rewrite Hl | unfold referenced; by rewrite Hs, Ha]).
  - destruct Hleak as [Hlive Hnot]. split; [done|].
    intros [(s & Hs & Hin)|(k' & m & s & Hk' & Hin)]; simpl in *.
    + apply Hnot. left. by exists s.
    + apply Hnot. right. exists k', m, s. split; [|done].
      destruct (decide (next_id (browser st) = k')) as [<-|Hne].
      * rewrite lookup_insert_eq in Hk'. by destruct (captureMode st).
      * by rewrite lookup_insert_ne in Hk'.
  - by apply settled_leaked.
  - by apply (notification_leaked st (RecorderStops final)).
  - by apply (notification_leaked st (RecorderEnds recorder final)).
Qed.

(** X11.  A live track that neither [streamRef] nor a suspended
    [startRecording] refers to is never stopped: it is still live, and
    still unreferenced, after any further sequence of events. *)
Theorem leaked_tracks_stay_live es es' t :
  leaked (run mounted es) t → leaked (run (run mounted es) es') t.
Proof.
  intros Hleak.
  assert (H : ∀ st, t < next_id (browser st) → leaked st t → leaked (run st es') t).
  { induction es' as [|e es' IH]; intros st Hlt Hl; [done|].
    apply IH; [|by apply step_leaked].
    pose proof (step_next_id st e). lia. }
  apply H; [|done]. apply live_tracks_allocated, Hleak.
Qed.

Lemma leaked_tracks_stay_live_witness :
  leaked (run (run mounted microphone_denied) spec_scenario) 2.
Proof.
  apply leaked_tracks_stay_live. split.
  - assert (H : bool_decide (2 ∈ live_tracks (browser (run mounted microphone_denied))) = true)
      by (vm_compute; reflexivity).
    by apply bool_decide_eq_true in H.
  - assert (Ha : acquisitions (browser (run mounted microphone_denied)) = ∅)
      by (vm_compute; reflexivity).
    intros [(s & Hs & _)|(k & m & s & Hk & _)].
    + vm_compute in Hs. discriminate.
    + rewrite Ha, lookup_empty in Hk. discriminate.
Defined.

(** ** Properties of the voice-call component *)

Module VoiceCallFacts.
Import VoiceCall.

Lemma Tidy_mounted : Tidy mounted.
Proof. by split. Qed.

Lemma Tidy_step trim st e :
  Tidy st → rendered trim st e = true → Tidy (step trim st e).
Proof.
  intros HT Hr. pose proof HT as [Ht Hl Hp Hidle Hpend]. destruct e; simpl in *.
  - apply andb_prop in Hr as [Hc Hn]. apply negb_true_iff in Hc, Hn.
    rewrite Hn in Hpend. split; simpl; auto.
    split; [done|]. rewrite Hpend. do 2 eexists. apply insert_empty.
  - apply andb_prop in Hr as [Hr Hb]. apply andb_prop in Hr as [Hc Hn].
    apply negb_true_iff in Hc, Hn, Hb. apply bool_decide_eq_false in Hb.
    unfold joinRoom. case_decide; [done|].
    rewrite Hn in Hpend. split; simpl; auto.
    split; [done|]. rewrite Hpend. do 2 eexists. apply insert_empty.
  - unfold connect_settled.
    destruct (acquisitions st !! k) as [suspended|] eqn:Hk; [|done].
    destruct (isConnecting (callState st)) eqn:Hcon;
      [|by rewrite Hpend, lookup_empty in Hk].
    destruct Hpend as (Hin & k0 & a & Hacq).
    rewrite Hacq in Hk. apply lookup_singleton_Some in Hk as [-> ->].
    destruct (Hidle Hin) as [Hs Hti].
    unfold tracked_timer, held_tracks in *. rewrite Hs in Hl. rewrite Hti in Ht.
    destruct o as [n|], suspended; simpl; split; unfold tracked_timer, held_tracks;
      simpl; auto;
      rewrite ?Hcon, ?Hacq, ?delete_singleton_eq, ?Ht, ?Hl, ?Hs, ?Hti, ?union_empty_r_L;
      try done.
  - destruct (isConnecting (callState st)) eqn:Hcon; [destruct Hpend; congruence|].
    unfold tracked_timer, held_tracks in Ht, Hl.
    unfold leaveCall, stopCallTimer, stop_tracks.
    destruct (localStreamRef st) eqn:Hs, (callTimerRef st) eqn:Hti; simpl;
      rewrite Hp; simpl; rewrite ?Hti; simpl; split;
      unfold tracked_timer, held_tracks; simpl; auto;
      rewrite ?Ht, ?Hl, ?Hti, ?Hs, ?difference_diag_L; done.
  - unfold toggleMicrophone.
    destruct (localStreamRef st) as [[|audioTrack s]|] eqn:Hs; try done.
    destruct (micEnabled st); simpl; split; simpl; auto;
      unfold held_tracks; simpl; try rewrite Hs; done.
  - unfold copyRoomId. case_decide; [done|]. by split.
  - destruct (isConnecting (callState st)) eqn:Hcon; [done|].
    split; simpl; rewrite ?Hcon; auto.
  - case_decide; [|done]. split; simpl; auto.
Qed.

Lemma Tidy_run trim es : ∀ st,
  Tidy st → through_the_buttons trim st es = true → Tidy (run trim st es).
Proof.
  induction es as [|e es IH]; intros st HT Hes; [done|].
  simpl in Hes. apply andb_prop in Hes as [He Hes].
  apply IH; [by apply Tidy_step | done].
Qed.

(** X13.  In the call component, as long as the requests come through the
    rendered buttons, at most one tick is live and it is the tracked one,
    every live track belongs to the held stream, at most one acquisition
    is pending, and outside a call nothing is live. *)
Theorem buttons_keep_the_call_tidy trim es :
  through_the_buttons trim mounted es = true →
  let st := run trim mounted es in
  timers st = tracked_timer st ∧ size (timers st) ≤ 1 ∧
  live_tracks st = held_tracks st ∧
  size (acquisitions st) ≤ 1 ∧
  (isInCall (callState st) = false → live_tracks st = ∅ ∧ timers st = ∅).
Proof.
  intros Hes st.
  destruct (Tidy_run trim es mounted Tidy_mounted Hes) as [Ht Hl _ Hidle Hpend].
  fold st in Ht, Hl, Hidle, Hpend.
  split; [done|]. split; [|split; [done|split]].
  - rewrite Ht. unfold tracked_timer.
    destruct (callTimerRef st); [rewrite size_singleton | rewrite size_empty]; lia.
  - destruct (isConnecting (callState st)).
    + destruct Hpend as (_ & k & a & ->). rewrite map_size_singleton. lia.
    + rewrite Hpend, map_size_empty. lia.
  - intros Hin. destruct (Hidle Hin) as [Hs Hti].
    rewrite Ht, Hl. unfold tracked_timer, held_tracks. by rewrite Hs, Hti.
Qed.

Lemma buttons_keep_the_call_tidy_witness :
  size (timers (run trim_nothing mounted call_in_progress)) ≤ 1.
Proof.
  destruct (buttons_keep_the_call_tidy trim_nothing call_in_progress) as (_ & H & _);
    [vm_compute; reflexivity | exact H].
Defined.

(** X14.  Leaving a call reached through the buttons stops every live
    track, cancels the tick, drops both handles and resets the call
    state. *)
Theorem leaving_releases_everything trim es :
  through_the_buttons trim mounted es = true →
  isInCall (callState (run trim mounted es)) = true →
  let st := leaveCall (run trim mounted es) in
  live_tracks st = ∅ ∧ timers st = ∅ ∧
  localStreamRef st = None ∧ callTimerRef st = None ∧
  callState st = initialCallState ∧ acquisitions st = ∅.
Proof.
  intros Hes Hcall.
  destruct (Tidy_run trim es mounted Tidy_mounted Hes) as [Ht Hl Hp Hidle Hpend].
  assert (Hacq : acquisitions (run trim mounted es) = ∅).
  { destruct (isConnecting (callState (run trim mounted es))); [|done].
    destruct Hpend as [Hin _]. congruence. }
  unfold tracked_timer, held_tracks in Ht, Hl.
  unfold leaveCall, stopCallTimer, stop_tracks.
  destruct (localStreamRef (run trim mounted es)) eqn:Hs,
           (callTimerRef (run trim mounted es)) eqn:Hti; simpl;
    rewrite Hp; simpl; rewrite ?Hti; simpl;
    rewrite ?Ht, ?Hl, ?Hti, ?Hs, ?difference_diag_L; repeat split; done.
Qed.

Lemma leaving_releases_everything_witness :
  live_tracks (leaveCall (run trim_nothing mounted call_in_progress)) = ∅.
Proof.
  destruct (leaving_releases_everything trim_nothing call_in_progress) as (H & _);
    [vm_compute; reflexivity.. | exact H].
Defined.



Lemma hours_suffix_length m s :
  m < 100 → s < 100 →
  String.length (":" +:+ padStart 2 "0" (Number_toString m) +:+ ":" +:+
                 padStart 2 "0" (Number_toString s)) = 6.
Proof. intros Hm Hs. by rewrite !String_length_app, !padStart_short. Qed.

Lemma hours_minutes_seconds n :
  n = 3600 * (n / 3600) + 60 * (n mod 3600 / 60) + n mod 60.
Proof.
  assert (Hs : (n mod 3600) mod 60 = n mod 60).
  { change 3600 with (60 * 60). rewrite Nat.Div0.mod_mul_r.
    rewrite (Nat.mul_comm 60), Nat.Div0.mod_add. apply Nat.Div0.mod_mod. }
  pose proof (Nat.div_mod_eq n 3600) as H1.
  pose proof (Nat.div_mod_eq (n mod 3600) 60) as H2.
  rewrite Hs in H2. lia.
Qed.

(** X16.  [formatCallDuration] never shows two different durations the
    same way, with or without the hours field. *)
Theorem formatCallDuration_injective a b :
  formatCallDuration a = formatCallDuration b → a = b.
Proof.
  unfold formatCallDuration. cbv zeta. intros Heq.
  assert (Hmins : ∀ n, n mod 3600 / 60 < 100).
  { intros n. pose proof (Nat.mod_upper_bound n 3600).
    apply Nat.Div0.div_lt_upper_bound. lia. }
  pose proof (Hmins a) as Hma. pose proof (Hmins b) as Hmb.
  assert (Hsa : a mod 60 < 100) by (pose proof (Nat.mod_upper_bound a 60); lia).
  assert (Hsb : b mod 60 < 100) by (pose proof (Nat.mod_upper_bound b 60); lia).
  pose proof (hours_minutes_seconds a) as Ea.
  pose proof (hours_minutes_seconds b) as Eb.
  clear Hmins.
  set (ha := a / 3600) in *. set (ma := a mod 3600 / 60) in *. set (sa := a mod 60) in *.
  set (hb := b / 3600) in *. set (mb := b mod 3600 / 60) in *. set (sb := b mod 60) in *.
  clearbody ha ma sa hb mb sb.
  repeat case_decide.
  - apply String_app_inv_suffix in Heq as [Hh Hrest];
      [|by rewrite !hours_suffix_length].
    rewrite !String_app_cons, !String_app_nil in Hrest. injection Hrest as Hrest.
    apply fields_injective in Hrest as [Hm Hs]; [|done..].
    apply (f_equal field_value) in Hh. rewrite !field_value_toString in Hh.
    apply (inj Some) in Hh. lia.
  - apply (f_equal String.length) in Heq.
    rewrite String_length_app, hours_suffix_length in Heq by done.
    rewrite !String_length_app, !padStart_short in Heq by done.
    pose proof (toString_nonempty ha). simpl in Heq. lia.
  - apply (f_equal String.length) in Heq.
    rewrite (String_length_app (Number_toString _)), hours_suffix_length in Heq by done.
    rewrite !String_length_app, !padStart_short in Heq by done.
    pose proof (toString_nonempty hb). simpl in Heq. lia.
  - apply fields_injective in Heq as [Hm Hs]; [|done..]. lia.
Qed.

Lemma formatCallDuration_injective_witness : 3725 = 3600 + 125.
Proof. apply formatCallDuration_injective. vm_compute. reflexivity. Defined.

(** X17.  Below one hour the call timer and the recording timer show a
    duration the same way. *)
Theorem formatCallDuration_under_an_hour seconds :
  seconds < 60 * 60 → formatCallDuration seconds = formatDuration seconds.
Proof.
  intros Hlt. unfold formatCallDuration, formatDuration. cbv zeta.
  rewrite (Nat.div_small seconds 3600), (Nat.mod_small seconds 3600) by lia.
  case_decide; [lia | done].
Qed.

Lemma formatCallDuration_under_an_hour_witness :
  formatCallDuration 75 = formatDuration 75.
Proof. apply formatCallDuration_under_an_hour. lia. Defined.

End VoiceCallFacts.
